(** * Exploring word vectors with GloVe: lookup, nearest neighbours, analogies

    A shallow embedding of the three functions of
    [glove-word-vectors/glove-word-vectors.ipynb]

      - [get_word]  (the word -> vector lookup),
      - [closest]   (the brute force nearest-neighbour scan),
      - [analogy]   (vector arithmetic followed by [closest]),

    together with the Python and torch operations they call.

    Numbers.  Vector components and distances are real numbers ([R]).
    torch's float32 subtraction and addition of components are the
    operations of a structure [Float32], which leaves their rounding
    open; [torch.dist] computes the distance of the specification.
    Overflow, infinities and NaN are outside the model.  Counts and
    indices are Python integers ([Z]).

    Effects.  The notebook's functions read the globals [wv_dict] and
    [wv_arr], may raise an exception, and [analogy] writes to standard
    output.  They are embedded in a state-and-exception monad [M] whose
    state holds the globals and the lines printed so far; an exception
    keeps the state reached when it was raised, as in Python. *)

From Stdlib Require Import String Reals List ZArith Bool Lia Lra.
From Stdlib Require Import Permutation Sorted.
Import ListNotations.

Local Open Scope Z_scope.

(** ** Values *)

(** A one-dimensional torch tensor. *)
Definition tensor := list R.

(** torch's arithmetic on float32 components: [fsub x y] and [fadd x y]
    are the float32 results of [x - y] and [x + y], which are the exact
    results rounded.  How they round is left open.  They are applied to
    the components of tensors, which are float32 values, and all that is
    used of them is that [x - x] is zero and that adding zero to a
    component changes nothing, as in float32 arithmetic on finite
    values. *)
Class Float32 : Type := mkFloat32 {
  fsub : R -> R -> R;
  fadd : R -> R -> R;
  fsub_diag : forall x, fsub x x = 0%R;
  fadd_0_l : forall x, fadd 0%R x = x
}.

(** Arithmetic that never rounds: float32 arithmetic as far as its
    results are exact, as with the small integers of the fixture tables
    below. *)
Definition exact_float : Float32 :=
  mkFloat32 Rminus Rplus Rminus_diag Rplus_0_l.

(** The exceptions the modelled code can raise: a missing dictionary
    key, an out-of-range tensor index, and torch's size mismatch. *)
Inductive exn : Type :=
| KeyError (key : string)
| IndexError (index : Z)
| RuntimeError.

(** What [print] receives.  The text produced by the format strings
    ['\n[%s : %s :: %s : (?)]'] and ['(%.4f) %s'] is kept as the format's
    arguments. *)
Inductive line : Type :=
| HeaderLine (w1 w2 w3 : string)
| TupleLine (distance : R) (word : string).

(** The globals bound by
    [wv_dict, wv_arr, wv_size = load_word_vectors('.', 'glove.6B', 100)]:
    a dictionary from words to row indices, kept in iteration (insertion)
    order, the two-dimensional tensor of vectors as its list of rows, and
    the dimension. *)
Record Globals : Type := mkGlobals {
  wv_dict : list (string * Z);
  wv_arr : list tensor;
  wv_size : nat
}.

Record State : Type := mkState {
  globals : Globals;
  stdout : list line
}.

(** ** The monad *)

Inductive result (A : Type) : Type :=
| Ok (a : A)
| Raise (e : exn).
Arguments Ok {A} a.
Arguments Raise {A} e.

Definition M (A : Type) : Type := State -> result A * State.

Definition ret {A} (a : A) : M A := fun s => (Ok a, s).

Definition raise {A} (e : exn) : M A := fun s => (Raise e, s).

Definition bind {A B} (m : M A) (k : A -> M B) : M B :=
  fun s =>
    match m s with
    | (Ok a, s') => k a s'
    | (Raise e, s') => (Raise e, s')
    end.

Declare Scope py_scope.
Delimit Scope py_scope with py.
Notation "x <- m ;; k" := (bind m (fun x => k))
  (at level 61, m at next level, right associativity) : py_scope.
Notation "m ;; k" := (bind m (fun _ => k))
  (at level 61, right associativity) : py_scope.
Local Open Scope py_scope.

(** Reading a global variable. *)
Definition global {A} (f : Globals -> A) : M A :=
  fun s => (Ok (f (globals s)), s).

(** Lifting a partial operation that raises [e] where it is undefined. *)
Definition lift {A} (o : option A) (e : exn) : M A :=
  match o with
  | Some a => ret a
  | None => raise e
  end.

(** A list comprehension [[f(x) for x in l]] and a [for] loop over [l]:
    the elements are visited left to right and the first exception ends
    the traversal. *)
Fixpoint mapM {A B} (f : A -> M B) (l : list A) : M (list B) :=
  match l with
  | [] => ret []
  | x :: l' => y <- f x ;; ys <- mapM f l' ;; ret (y :: ys)
  end.

Fixpoint forM_ {A} (l : list A) (f : A -> M unit) : M unit :=
  match l with
  | [] => ret tt
  | x :: l' => f x ;; forM_ l' f
  end.

(** ** Python built-ins *)

Module Py.

(** [print(...)]: one more line on standard output. *)
Definition print (ln : line) : M unit :=
  fun s => (Ok tt, mkState (globals s) (stdout s ++ [ln])).

(** [d[k]] on a dictionary. *)
Fixpoint dict_get (d : list (string * Z)) (k : string) : option Z :=
  match d with
  | [] => None
  | (k', v) :: d' => if String.eqb k k' then Some v else dict_get d' k
  end.

Definition getitem (d : list (string * Z)) (k : string) : M Z :=
  lift (dict_get d k) (KeyError k).

(** Iterating a dictionary yields its keys in order. *)
Definition keys (d : list (string * Z)) : list string := map fst d.

(** The slice [l[:n]]: the first [n] elements for [n >= 0]; for
    [n < 0] all but the last [-n] (none when [-n] exceeds the
    length). *)
Definition slice_to {A} (n : Z) (l : list A) : list A :=
  if n <? 0 then firstn (Z.to_nat (Z.max 0 (Z.of_nat (length l) + n))) l
  else firstn (Z.to_nat n) l.

(** [x in l] for a list of strings. *)
Definition contains (l : list string) (x : string) : bool :=
  existsb (String.eqb x) l.

(** [sorted(l, key=key)]: the stable sort by [<] on the keys, written
    as the insertion sort that puts an element after exactly those
    elements of the sorted rest whose key is strictly smaller.  Every
    stable ascending sort produces the same list ([stable_sort_unique]). *)
Section Sorted.
Context {A : Type} (key : A -> R).

Fixpoint insert (x : A) (l : list A) : list A :=
  match l with
  | [] => [x]
  | y :: l' =>
      if Rlt_dec (key y) (key x) then y :: insert x l' else x :: y :: l'
  end.

Definition sorted (l : list A) : list A := fold_right insert [] l.
End Sorted.

End Py.

(** ** torch operations *)

Module Torch.

(** [arr[i]] on a two-dimensional tensor: row [i], counted from the
    end for a negative [i]. *)
Definition row (arr : list tensor) (i : Z) : option tensor :=
  let n := Z.of_nat (length arr) in
  if (0 <=? i) && (i <? n) then nth_error arr (Z.to_nat i)
  else if (- n <=? i) && (i <? 0) then nth_error arr (Z.to_nat (i + n))
  else None.

Definition getitem (arr : list tensor) (i : Z) : M tensor :=
  lift (row arr i) (IndexError i).

(** The componentwise combination of two tensors of one size. *)
Definition zip_with (f : R -> R -> R) (a b : tensor) : tensor :=
  map (fun p => f (fst p) (snd p)) (combine a b).

(** torch's broadcasting of two one-dimensional tensors: tensors of one
    size are taken as they are, a tensor of one component is repeated to
    the size of the other, and other sizes do not go together. *)
Definition broadcast (a b : tensor) : option (tensor * tensor) :=
  if Nat.eqb (length a) (length b) then Some (a, b)
  else if Nat.eqb (length a) 1 then Some (repeat (hd 0%R a) (length b), b)
  else if Nat.eqb (length b) 1 then Some (a, repeat (hd 0%R b) (length a))
  else None.

(** An elementwise operation: on the broadcast operands, and a
    [RuntimeError] for sizes that do not go together. *)
Definition elementwise (f : R -> R -> R) (a b : tensor) : M tensor :=
  match broadcast a b with
  | Some (a', b') => ret (zip_with f a' b')
  | None => raise RuntimeError
  end.

(** [a - b] and [a + b] on float32 tensors. *)
Definition sub {F : Float32} (a b : tensor) : M tensor := elementwise fsub a b.

Definition add {F : Float32} (a b : tensor) : M tensor := elementwise fadd a b.

(** The sum of the squared componentwise differences. *)
Definition sum_sq (a b : tensor) : R :=
  fold_right Rplus 0%R (zip_with (fun x y => ((x - y) * (x - y))%R) a b).

(** Modelled from the spec: [torch.dist(a, b)] belongs to the torch
    library, which is not part of the notebook.  Following the
    specification it is the Euclidean distance
    [sqrt(sum_i (a_i - b_i)^2)]; as an operation of torch it takes its
    operands broadcast, and it fails when their sizes do not go
    together. *)
Definition dist (a b : tensor) : M R :=
  match broadcast a b with
  | Some (a', b') => ret (sqrt (sum_sq a' b'))
  | None => raise RuntimeError
  end.

End Torch.

(** ** The notebook *)

(** [[
def get_word(word):
    return wv_arr[wv_dict[word]]
]] *)
Definition get_word (word : string) : M tensor :=
  arr <- global wv_arr ;;
  d <- global wv_dict ;;
  i <- Py.getitem d word ;;
  Torch.getitem arr i.

(** The list comprehension of [closest]:
    [[(w, torch.dist(d, get_word(w))) for w in wv_dict]]. *)
Definition all_dists (d : tensor) : M (list (string * R)) :=
  dict <- global wv_dict ;;
  mapM (fun w => v <- get_word w ;; x <- Torch.dist d v ;; ret (w, x))
       (Py.keys dict).

(** [[
def closest(d, n=10):
    all_dists = [(w, torch.dist(d, get_word(w))) for w in wv_dict]
    return sorted(all_dists, key=lambda t: t[1])[:n]
]] *)
Definition closest (d : tensor) (n : Z) : M (list (string * R)) :=
  dists <- all_dists d ;;
  ret (Py.slice_to n (Py.sorted snd dists)).

(** The default of [closest]'s parameter [n]. *)
Definition closest_default_n : Z := 10.

(** [[
def print_tuples(tuples):
    for tuple in tuples:
        print('(%.4f) %s' % (tuple[1], tuple[0]))
]] *)
Definition print_tuples (tuples : list (string * R)) : M unit :=
  forM_ tuples (fun t => Py.print (TupleLine (snd t) (fst t))).

(** The argument of [closest] in [analogy]:
    [get_word(w2) - get_word(w1) + get_word(w3)], operands evaluated left
    to right. *)
Definition analogy_query {F : Float32} (w1 w2 w3 : string) : M tensor :=
  v2 <- get_word w2 ;;
  v1 <- get_word w1 ;;
  v21 <- Torch.sub v2 v1 ;;
  v3 <- get_word w3 ;;
  Torch.add v21 v3.

(** The test of the filtering comprehension: [t[0] not in [w1, w2, w3]]. *)
Definition not_given (w1 w2 w3 : string) (t : string * R) : bool :=
  negb (Py.contains [w1; w2; w3] (fst t)).

(** [[
def analogy(w1, w2, w3, n=5, filter_given=True):
    print('\n[%s : %s :: %s : (?)]' % (w1, w2, w3))
    closest_words = closest(get_word(w2) - get_word(w1) + get_word(w3))
    if filter_given:
        closest_words = [t for t in closest_words if t[0] not in [w1, w2, w3]]
    print_tuples(closest_words[:n])
]] *)
Definition analogy {F : Float32} (w1 w2 w3 : string) (n : Z)
    (filter_given : bool) : M unit :=
  Py.print (HeaderLine w1 w2 w3) ;;
  q <- analogy_query w1 w2 w3 ;;
  closest_words <- closest q closest_default_n ;;
  let closest_words :=
    if filter_given then filter (not_given w1 w2 w3) closest_words
    else closest_words in
  print_tuples (Py.slice_to n closest_words).

(** * Vocabulary of the properties *)

(** A computation that only reads the globals: it returns the state it
    was given, and its outcome is a function of the globals alone. *)
Definition reads {A} (m : M A) : Prop :=
  exists f : Globals -> result A, forall s, m s = (f (globals s), s).

(** A computation that reads the globals and appends to standard output:
    outcome and appended lines are a function of the globals alone. *)
Definition prints {A} (m : M A) : Prop :=
  exists f : Globals -> result A * list line,
    forall s, m s = (fst (f (globals s)),
                     mkState (globals s) (stdout s ++ snd (f (globals s)))).


(** The table as [load_word_vectors] hands it over: the dictionary has
    each word once, every index it holds is a row of [wv_arr], and every
    row has [wv_size] components. *)
Record wf_table (g : Globals) : Prop := mk_wf_table {
  wf_keys : NoDup (Py.keys (wv_dict g));
  wf_index :
    Forall (fun p => 0 <= snd p < Z.of_nat (length (wv_arr g))) (wv_dict g);
  wf_rows : Forall (fun v => length v = wv_size g) (wv_arr g)
}.

(** The word is in the vocabulary. *)
Definition has_word (g : Globals) (w : string) : Prop :=
  In w (Py.keys (wv_dict g)).

(** The number of words of the table. *)
Definition size (g : Globals) : nat := length (wv_dict g).

(** Row [i] of [wv_arr], for an index in range. *)
Definition vector (g : Globals) (i : Z) : tensor :=
  nth (Z.to_nat i) (wv_arr g) [].

(** The Euclidean distance. *)
Definition euclid (a b : tensor) : R := sqrt (Torch.sum_sq a b).

(** The pair [closest] computes for the dictionary item [p]. *)
Definition entry_dist (g : Globals) (d : tensor) (p : string * Z) : string * R :=
  (fst p, euclid d (vector g (snd p))).

(** Ascending order of the keys, and the test that a key is [k]. *)
Definition key_le {A} (key : A -> R) (x y : A) : Prop := (key x <= key y)%R.

Definition key_is {A} (key : A -> R) (k : R) (x : A) : bool :=
  if Req_dec_T (key x) k then true else false.

(** Ascending order of the distances. *)
Definition dist_le : string * R -> string * R -> Prop := key_le snd.

(** The entries of [l] at distance [x], in the order of [l]. *)
Definition at_dist (x : R) (l : list (string * R)) : list (string * R) :=
  filter (key_is snd x) l.

(** The sum of [f 0], ..., [f (n - 1)]. *)
Fixpoint sum_below (n : nat) (f : nat -> R) : R :=
  match n with
  | O => 0%R
  | S n' => (f O + sum_below n' (fun i => f (S i)))%R
  end.

(** The distance [sqrt (sum_i (q_i - v_i)^2)] over [D] components. *)
Definition euclidean_distance (D : nat) (q v : tensor) : R :=
  sqrt (sum_below D (fun i => (nth i q 0 - nth i v 0) * (nth i q 0 - nth i v 0)))%R.

(** The line [print_tuples] prints for an entry. *)
Definition tuple_line (t : string * R) : line := TupleLine (snd t) (fst t).

(** [analogy] completes and the sequence it hands to [print_tuples], which
    is what it shows after its header, is [l]. *)
Definition analogy_yields {F : Float32} (w1 w2 w3 : string) (n : Z)
    (filter_given : bool) (s : State) (l : list (string * R)) : Prop :=
  analogy w1 w2 w3 n filter_given s
  = (Ok tt,
     mkState (globals s) (stdout s ++ HeaderLine w1 w2 w3 :: map tuple_line l)).

(** The entry is none of the three given words. *)
Definition avoids (w1 w2 w3 : string) (t : string * R) : Prop :=
  fst t <> w1 /\ fst t <> w2 /\ fst t <> w3.

(** ** Fixture tables *)

Local Open Scope string_scope.

(** Eleven words on a line (one component each). *)
Definition royal_table : Globals :=
  mkGlobals
    [("the", 0); ("king", 1); ("man", 2); ("queen", 3); ("woman", 4);
     ("girl", 5); ("she", 6); ("teenager", 7); ("boy", 8); ("prince", 9);
     ("castle", 10)]
    [[20%R]; [5%R]; [2%R]; [6%R]; [3%R]; [4%R]; [1%R]; [7%R]; [(-2)%R];
     [9%R]; [11%R]]
    1.

(** The query of [analogy('king', 'man', 'queen')] on [royal_table]:
    man - king + queen, which float32 arithmetic computes exactly. *)
Definition royal_query : tensor :=
  Torch.zip_with Rplus (Torch.zip_with Rminus [2%R] [5%R]) [6%R].

(** Two spellings that share one vector. *)
Definition spelling_table : Globals :=
  mkGlobals
    [("colour", 0); ("color", 1); ("shade", 2)]
    [[1%R; 2%R]; [1%R; 2%R]; [4%R; 6%R]]
    2.

Local Close Scope string_scope.

(** ** The notebook's cells *)

(** The cell [print_tuples(closest(get_word('google')))], for any word in
    the place of ['google']: [closest] is called with its default [n]. *)
Definition show_closest (word : string) : M unit :=
  v <- get_word word ;;
  closest_words <- closest v closest_default_n ;;
  print_tuples closest_words.

(** A call [analogy(w1, w2, w3)], which leaves [n] and [filter_given] at
    their defaults [5] and [True]. *)
Definition analogy_default {F : Float32} (w1 w2 w3 : string) : M unit :=
  analogy w1 w2 w3 5 true.

(** The cell of successive calls [analogy(w1, w2, w3)], one per triple. *)
Definition analogies {F : Float32}
    (triples : list (string * string * string)) : M unit :=
  forM_ triples
    (fun t => analogy_default (fst (fst t)) (snd (fst t)) (snd t)).

(** The whole table ranked by distance to [q]: what [closest] slices. *)
Definition ranking (g : Globals) (q : tensor) : list (string * R) :=
  Py.sorted snd (map (entry_dist g q) (wv_dict g)).

(** The lines one call [analogy(w1, w2, w3)] shows for the entries [l]. *)
Definition analogy_lines (t : string * string * string)
    (l : list (string * R)) : list line :=
  HeaderLine (fst (fst t)) (snd (fst t)) (snd t) :: map tuple_line l.

(** The three words of a call are in the vocabulary. *)
Definition present (g : Globals) (t : string * string * string) : Prop :=
  has_word g (fst (fst t)) /\ has_word g (snd (fst t)) /\ has_word g (snd t).

(** The lines a cell of calls shows when the call for each triple shows
    the entries paired with it. *)
Definition cell_lines (triples : list (string * string * string))
    (shown : list (list (string * R))) : list line :=
  concat (map (fun p => analogy_lines (fst p) (snd p)) (combine triples shown)).

(** * Properties *)

(** ** Running the monad *)

Lemma bind_Ok {A B} (m : M A) (k : A -> M B) s a s' :
  m s = (Ok a, s') -> bind m k s = k a s'.
Proof. unfold bind; intros ->; reflexivity. Qed.

Lemma bind_Raise {A B} (m : M A) (k : A -> M B) s e s' :
  m s = (Raise e, s') -> bind m k s = (Raise e, s').
Proof. unfold bind; intros ->; reflexivity. Qed.

Section Effects.
Context {A B : Type}.

Lemma reads_ret (a : A) : reads (ret a).
Proof. exists (fun _ => Ok a); reflexivity. Qed.

Lemma reads_raise (e : exn) : reads (@raise A e).
Proof. exists (fun _ => Raise e); reflexivity. Qed.

Lemma reads_global (f : Globals -> A) : reads (global f).
Proof. exists (fun g => Ok (f g)); reflexivity. Qed.

Lemma reads_lift (o : option A) (e : exn) : reads (lift o e).
Proof. destruct o; [apply reads_ret | apply reads_raise]. Qed.

Lemma reads_bind (m : M A) (k : A -> M B) :
  reads m -> (forall a, reads (k a)) -> reads (bind m k).
Proof.
  intros [f Hf] Hk.
  exists (fun g => match f g with
                   | Ok a => fst (k a (mkState g []))
                   | Raise e => Raise e
                   end).
  intros s. unfold bind. rewrite Hf.
  destruct (f (globals s)) as [a|e]; [|reflexivity].
  destruct (Hk a) as [h Hh]. rewrite !Hh. reflexivity.
Qed.

Lemma reads_prints (m : M A) : reads m -> prints m.
Proof.
  intros [f Hf]. exists (fun g => (f g, [])).
  intros [g out]. rewrite Hf. cbn. rewrite app_nil_r. reflexivity.
Qed.

Lemma prints_bind (m : M A) (k : A -> M B) :
  prints m -> (forall a, prints (k a)) -> prints (bind m k).
Proof.
  intros [f Hf] Hk.
  exists (fun g => match fst (f g) with
                   | Ok a => let r := k a (mkState g []) in
                             (fst r, snd (f g) ++ stdout (snd r))
                   | Raise e => (Raise e, snd (f g))
                   end).
  intros s. unfold bind. rewrite Hf.
  destruct (f (globals s)) as [[a|e] out]; cbn; [|reflexivity].
  destruct (Hk a) as [h Hh]. rewrite !Hh. cbn.
  rewrite app_assoc. reflexivity.
Qed.
End Effects.

Lemma reads_state {A} (m : M A) s : reads m -> snd (m s) = s.
Proof. intros [f Hf]. now rewrite Hf. Qed.

Lemma reads_result {A} (m : M A) s s' :
  reads m -> globals s = globals s' -> fst (m s) = fst (m s').
Proof. intros [f Hf] Hg. now rewrite !Hf, Hg. Qed.

Lemma reads_run {A} (m : M A) g out out' r :
  reads m -> m (mkState g out) = (r, mkState g out) ->
  m (mkState g out') = (r, mkState g out').
Proof.
  intros [f Hf] Hm. rewrite Hf in *. cbn in *. congruence.
Qed.

Lemma reads_mapM {A B} (f : A -> M B) (l : list A) :
  (forall x, reads (f x)) -> reads (mapM f l).
Proof.
  intros Hf. induction l as [|x l IH]; cbn.
  - apply reads_ret.
  - apply reads_bind; [apply Hf|]. intros y.
    apply reads_bind; [apply IH|]. intros ys. apply reads_ret.
Qed.

Lemma prints_print (ln : line) : prints (Py.print ln).
Proof. exists (fun _ => (Ok tt, [ln])). reflexivity. Qed.

Lemma prints_forM_ {A} (l : list A) (f : A -> M unit) :
  (forall x, prints (f x)) -> prints (forM_ l f).
Proof.
  intros Hf. induction l as [|x l IH]; cbn.
  - apply reads_prints, reads_ret.
  - apply prints_bind; [apply Hf | intros _; apply IH].
Qed.

Lemma reads_get_word w : reads (get_word w).
Proof.
  unfold get_word.
  repeat (apply reads_bind; [|intros ?]);
    auto using @reads_global, @reads_lift.
  all: apply reads_lift.
Qed.

Lemma reads_dist a b : reads (Torch.dist a b).
Proof.
  unfold Torch.dist.
  destruct (Torch.broadcast a b) as [[a' b']|]; [apply reads_ret | apply reads_raise].
Qed.

Lemma reads_elementwise f a b : reads (Torch.elementwise f a b).
Proof.
  unfold Torch.elementwise.
  destruct (Torch.broadcast a b) as [[a' b']|]; [apply reads_ret | apply reads_raise].
Qed.

Lemma reads_sub {F : Float32} a b : reads (Torch.sub a b).
Proof. apply reads_elementwise. Qed.

Lemma reads_add {F : Float32} a b : reads (Torch.add a b).
Proof. apply reads_elementwise. Qed.

Lemma reads_all_dists d : reads (all_dists d).
Proof.
  unfold all_dists. apply reads_bind; [apply reads_global|]. intros dict.
  apply reads_mapM. intros w.
  apply reads_bind; [apply reads_get_word|]. intros v.
  apply reads_bind; [apply reads_dist|]. intros x. apply reads_ret.
Qed.

Lemma reads_closest d n : reads (closest d n).
Proof.
  unfold closest. apply reads_bind; [apply reads_all_dists|].
  intros l. apply reads_ret.
Qed.

Lemma reads_analogy_query {F : Float32} w1 w2 w3 :
  reads (analogy_query w1 w2 w3).
Proof.
  unfold analogy_query.
  apply reads_bind; [apply reads_get_word|]. intros v2.
  apply reads_bind; [apply reads_get_word|]. intros v1.
  apply reads_bind; [apply reads_sub|]. intros v21.
  apply reads_bind; [apply reads_get_word|]. intros v3.
  apply reads_add.
Qed.

Lemma prints_print_tuples l : prints (print_tuples l).
Proof. apply prints_forM_. intros t. apply prints_print. Qed.

Lemma prints_analogy {F : Float32} w1 w2 w3 n fg :
  prints (analogy w1 w2 w3 n fg).
Proof.
  unfold analogy.
  apply prints_bind; [apply prints_print|]. intros _.
  apply prints_bind; [apply reads_prints, reads_analogy_query|]. intros q.
  apply prints_bind; [apply reads_prints, reads_closest|]. intros cw.
  apply prints_print_tuples.
Qed.

(** ** Dictionary and tensor access *)

Lemma dict_get_Some d w i : Py.dict_get d w = Some i -> In (w, i) d.
Proof.
  induction d as [|[k v] d IH]; cbn; [discriminate|].
  destruct (String.eqb_spec w k) as [->|Hne].
  - intros [= ->]. now left.
  - intros H. right. now apply IH.
Qed.

Lemma dict_get_None d w : Py.dict_get d w = None <-> ~ In w (Py.keys d).
Proof.
  induction d as [|[k v] d IH]; cbn.
  - tauto.
  - destruct (String.eqb_spec w k) as [->|Hne].
    + split; [discriminate | intros H; exfalso; apply H; now left].
    + rewrite IH. split.
      * intros H [Hk|Hin]; [now apply Hne | now apply H].
      * intros H Hin. apply H. now right.
Qed.

Lemma dict_get_In d w i :
  NoDup (Py.keys d) -> In (w, i) d -> Py.dict_get d w = Some i.
Proof.
  induction d as [|[k v] d IH]; cbn; [tauto|].
  intros Hnd [Heq|Hin].
  - injection Heq as -> ->. now rewrite String.eqb_refl.
  - inversion Hnd as [|? ? Hk Hd]; subst.
    destruct (String.eqb_spec w k) as [->|Hne].
    + exfalso. apply Hk. change k with (fst (k, i)). now apply in_map.
    + now apply IH.
Qed.

Lemma has_word_In g w : has_word g w <-> exists i, In (w, i) (wv_dict g).
Proof.
  unfold has_word, Py.keys. rewrite in_map_iff. split.
  - intros [[k i] [Hk Hin]]. cbn in Hk. subst. now exists i.
  - intros [i Hin]. now exists (w, i).
Qed.

Lemma row_in_range arr i :
  0 <= i < Z.of_nat (length arr) ->
  Torch.row arr i = Some (nth (Z.to_nat i) arr []).
Proof.
  intros Hi. unfold Torch.row. cbn zeta.
  replace (0 <=? i) with true by (symmetry; apply Z.leb_le; lia).
  replace (i <? Z.of_nat (length arr)) with true
    by (symmetry; apply Z.ltb_lt; lia).
  cbn. apply nth_error_nth'. lia.
Qed.

Lemma get_word_eq w s :
  get_word w s =
  (match Py.dict_get (wv_dict (globals s)) w with
   | None => Raise (KeyError w)
   | Some i =>
       match Torch.row (wv_arr (globals s)) i with
       | Some v => Ok v
       | None => Raise (IndexError i)
       end
   end, s).
Proof.
  unfold get_word, bind, global, Py.getitem, Torch.getitem, lift.
  destruct (Py.dict_get _ w) as [i|]; cbn; [|reflexivity].
  destruct (Torch.row _ i); reflexivity.
Qed.

Section WellFormed.
Variable g : Globals.
Hypothesis Hwf : wf_table g.

Lemma vector_length i :
  0 <= i < Z.of_nat (length (wv_arr g)) -> length (vector g i) = wv_size g.
Proof.
  intros Hi. unfold vector.
  pose proof (wf_rows g Hwf) as Hrows. rewrite Forall_forall in Hrows.
  apply Hrows, nth_In. lia.
Qed.

Lemma item_in_range w i :
  In (w, i) (wv_dict g) -> 0 <= i < Z.of_nat (length (wv_arr g)).
Proof.
  intros Hin. pose proof (wf_index g Hwf) as Hidx.
  rewrite Forall_forall in Hidx. exact (Hidx _ Hin).
Qed.

Lemma get_word_item w i out :
  In (w, i) (wv_dict g) ->
  get_word w (mkState g out) = (Ok (vector g i), mkState g out).
Proof.
  intros Hin. rewrite get_word_eq. cbn.
  rewrite (dict_get_In _ _ _ (wf_keys g Hwf) Hin).
  rewrite row_in_range by now apply item_in_range with w.
  reflexivity.
Qed.

Lemma get_word_absent w out :
  ~ has_word g w ->
  get_word w (mkState g out) = (Raise (KeyError w), mkState g out).
Proof.
  intros Hw. rewrite get_word_eq. cbn.
  apply dict_get_None in Hw. now rewrite Hw.
Qed.
End WellFormed.

(** ** The Euclidean distance *)

Local Open Scope R_scope.

Lemma sum_sq_nonneg a b : 0 <= Torch.sum_sq a b.
Proof.
  unfold Torch.sum_sq, Torch.zip_with.
  induction (combine a b) as [|[x y] l IH]; cbn; [lra|].
  pose proof (Rle_0_sqr (x - y)) as Hsq. unfold Rsqr in Hsq. lra.
Qed.

Lemma sum_sq_components a b :
  length a = length b ->
  Torch.sum_sq a b
  = sum_below (length a) (fun i => (nth i a 0 - nth i b 0) * (nth i a 0 - nth i b 0)).
Proof.
  unfold Torch.sum_sq, Torch.zip_with. revert b.
  induction a as [|x a IH]; intros [|y b]; cbn; try discriminate.
  - reflexivity.
  - intros [= Hlen]. now rewrite IH.
Qed.

Lemma euclid_components a b :
  length a = length b -> euclid a b = euclidean_distance (length a) a b.
Proof.
  intros Hlen. unfold euclid, euclidean_distance.
  now rewrite sum_sq_components.
Qed.

Lemma euclid_nonneg a b : 0 <= euclid a b.
Proof. apply sqrt_pos. Qed.

Lemma sum_sq_refl a : Torch.sum_sq a a = 0.
Proof.
  unfold Torch.sum_sq, Torch.zip_with.
  induction a as [|x a IH]; cbn; [reflexivity|].
  cbn in IH. rewrite IH. ring.
Qed.

Lemma euclid_refl a : euclid a a = 0.
Proof. unfold euclid. rewrite sum_sq_refl. apply sqrt_0. Qed.

Lemma sum_sq_zero a b :
  length a = length b -> Torch.sum_sq a b = 0 -> a = b.
Proof.
  revert b. induction a as [|x a IH]; intros [|y b]; cbn; try discriminate.
  - reflexivity.
  - intros [= Hlen] Hsum.
    change (fold_right Rplus 0
              (map (fun p => (fst p - snd p) * (fst p - snd p)) (combine a b)))
      with (Torch.sum_sq a b) in Hsum.
    pose proof (sum_sq_nonneg a b) as Hge.
    pose proof (Rle_0_sqr (x - y)) as Hsq. unfold Rsqr in Hsq.
    assert (Hx : (x - y) * (x - y) = 0) by lra.
    assert (Hs : Torch.sum_sq a b = 0) by lra.
    apply Rmult_integral in Hx.
    f_equal; [destruct Hx; lra | now apply IH].
Qed.

Lemma euclid_zero a b : length a = length b -> euclid a b = 0 -> a = b.
Proof.
  intros Hlen Hd. apply sum_sq_zero; [assumption|].
  apply sqrt_eq_0; [apply sum_sq_nonneg | exact Hd].
Qed.

Lemma euclid_pos a b : length a = length b -> a <> b -> 0 < euclid a b.
Proof.
  intros Hlen Hne. destruct (euclid_nonneg a b) as [Hlt|Heq]; [assumption|].
  exfalso. apply Hne. now apply euclid_zero.
Qed.

Local Close Scope R_scope.

Lemma broadcast_same_size a b :
  length a = length b -> Torch.broadcast a b = Some (a, b).
Proof. intros Hlen. unfold Torch.broadcast. now rewrite Hlen, Nat.eqb_refl. Qed.




Lemma dist_same_size a b s :
  length a = length b -> Torch.dist a b s = (Ok (euclid a b), s).
Proof.
  intros Hlen. unfold Torch.dist. now rewrite broadcast_same_size.
Qed.




Lemma elementwise_same_size f a b s :
  length a = length b ->
  Torch.elementwise f a b s = (Ok (Torch.zip_with f a b), s).
Proof.
  intros Hlen. unfold Torch.elementwise. now rewrite broadcast_same_size.
Qed.

(** ** The scan *)

Section Scan.
Variable g : Globals.
Hypothesis Hwf : wf_table g.

Lemma scan_items d out l :
  length d = wv_size g ->
  incl l (wv_dict g) ->
  mapM (fun w => v <- get_word w ;; x <- Torch.dist d v ;; ret (w, x))
       (Py.keys l) (mkState g out)
  = (Ok (map (entry_dist g d) l), mkState g out).
Proof.
  intros Hd. induction l as [|[w i] l IH]; intros Hincl; [reflexivity|].
  assert (Hin : In (w, i) (wv_dict g)) by (apply Hincl; now left).
  assert (Hl : incl l (wv_dict g)) by (intros p Hp; apply Hincl; now right).
  cbn [Py.keys map fst mapM].
  erewrite bind_Ok; cycle 1.
  { erewrite bind_Ok by (exact (get_word_item g Hwf w i out Hin)).
    erewrite bind_Ok; [reflexivity|].
    apply dist_same_size. rewrite Hd. symmetry.
    apply vector_length; [assumption | now apply item_in_range with w]. }
  erewrite bind_Ok by (apply IH, Hl). reflexivity.
Qed.

Lemma all_dists_run d out :
  length d = wv_size g ->
  all_dists d (mkState g out)
  = (Ok (map (entry_dist g d) (wv_dict g)), mkState g out).
Proof.
  intros Hd. unfold all_dists.
  erewrite bind_Ok by reflexivity. cbn [globals].
  apply scan_items; [assumption | apply incl_refl].
Qed.






Lemma closest_run d n out :
  length d = wv_size g ->
  closest d n (mkState g out)
  = (Ok (Py.slice_to n (Py.sorted snd (map (entry_dist g d) (wv_dict g)))),
     mkState g out).
Proof.
  intros Hd. unfold closest.
  erewrite bind_Ok by now apply all_dists_run. reflexivity.
Qed.

Lemma entry_words d l : map fst (map (entry_dist g d) l) = Py.keys l.
Proof. unfold Py.keys. rewrite map_map. reflexivity. Qed.
End Scan.

(** ** [sorted] is a stable sort *)

Section SortedFacts.
Context {A : Type} (key : A -> R).

Lemma insert_lt x y l :
  (key y < key x)%R -> Py.insert key x (y :: l) = y :: Py.insert key x l.
Proof. intros H. cbn. destruct (Rlt_dec (key y) (key x)); [reflexivity | contradiction]. Qed.

Lemma insert_ge x y l :
  (key x <= key y)%R -> Py.insert key x (y :: l) = x :: y :: l.
Proof. intros H. cbn. destruct (Rlt_dec (key y) (key x)); [lra | reflexivity]. Qed.

Lemma insert_nil x : Py.insert key x [] = [x].
Proof. reflexivity. Qed.

Lemma sorted_nil : Py.sorted key [] = [].
Proof. reflexivity. Qed.

Lemma sorted_cons x l : Py.sorted key (x :: l) = Py.insert key x (Py.sorted key l).
Proof. reflexivity. Qed.

Lemma insert_perm x l : Permutation (Py.insert key x l) (x :: l).
Proof.
  induction l as [|y l IH]; cbn; [reflexivity|].
  destruct (Rlt_dec (key y) (key x)); [|reflexivity].
  rewrite IH. apply perm_swap.
Qed.

Lemma sorted_perm l : Permutation (Py.sorted key l) l.
Proof.
  induction l as [|x l IH]; [reflexivity|].
  rewrite sorted_cons, insert_perm. now constructor.
Qed.

Lemma sorted_length l : length (Py.sorted key l) = length l.
Proof. apply Permutation_length, sorted_perm. Qed.

Lemma insert_ascending x l :
  StronglySorted (key_le key) l -> StronglySorted (key_le key) (Py.insert key x l).
Proof.
  induction 1 as [|y l Hl IH Hy]; cbn.
  - repeat constructor.
  - destruct (Rlt_dec (key y) (key x)) as [Hlt|Hge].
    + constructor; [exact IH|].
      rewrite (insert_perm x l). constructor; [|exact Hy].
      unfold key_le. lra.
    + assert (Hxy : key_le key x y) by (unfold key_le; lra).
      constructor; [now constructor|].
      constructor; [exact Hxy|].
      eapply Forall_impl; [|exact Hy].
      unfold key_le in *. intros z Hz. lra.
Qed.

Lemma sorted_ascending l : StronglySorted (key_le key) (Py.sorted key l).
Proof.
  induction l as [|x l IH]; [constructor|].
  rewrite sorted_cons. now apply insert_ascending.
Qed.

Lemma insert_stable k x l :
  filter (key_is key k) (Py.insert key x l) = filter (key_is key k) (x :: l).
Proof.
  induction l as [|y l IH]; [reflexivity|].
  cbn [Py.insert].
  destruct (Rlt_dec (key y) (key x)) as [Hlt|Hge]; [|reflexivity].
  cbn [filter] in *. rewrite IH. unfold key_is.
  destruct (Req_dec_T (key y) k), (Req_dec_T (key x) k); try reflexivity.
  lra.
Qed.

Lemma sorted_stable k l :
  filter (key_is key k) (Py.sorted key l) = filter (key_is key k) l.
Proof.
  induction l as [|x l IH]; [reflexivity|].
  rewrite sorted_cons, insert_stable. cbn. now rewrite IH.
Qed.

(** A list in ascending order is left as it is. *)
Lemma sorted_id l : StronglySorted (key_le key) l -> Py.sorted key l = l.
Proof.
  induction 1 as [|x l Hl IH Hx]; [reflexivity|].
  rewrite sorted_cons, IH. destruct l as [|y l]; [reflexivity|].
  apply insert_ge. now inversion Hx.
Qed.

(** The first element of least key comes first. *)
Lemma sorted_least pre x post :
  (forall y, In y pre -> (key x < key y)%R) ->
  (forall y, In y post -> (key x <= key y)%R) ->
  Py.sorted key (pre ++ x :: post) = x :: Py.sorted key (pre ++ post).
Proof.
  intros Hpre Hpost. induction pre as [|p pre IH]; cbn [app].
  - rewrite sorted_cons.
    pose proof (sorted_perm post) as Hperm.
    destruct (Py.sorted key post) as [|y l]; [reflexivity|].
    apply insert_ge, Hpost.
    apply (Permutation_in _ Hperm). now left.
  - rewrite !sorted_cons, IH by (intros y Hy; apply Hpre; now right).
    apply insert_lt, Hpre. now left.
Qed.
(** Two ascending lists with the same elements, and the same elements in
    the same order at every key, are equal. *)
Lemma ascending_stable_eq r r' :
  StronglySorted (key_le key) r -> StronglySorted (key_le key) r' ->
  Permutation r r' ->
  (forall k, filter (key_is key k) r = filter (key_is key k) r') ->
  r = r'.
Proof.
  intros Hr. revert r'.
  induction Hr as [|x r Hr IH Hx]; intros r' Hr' Hperm Hkeys.
  - now apply Permutation_nil in Hperm.
  - destruct Hr' as [|y r' Hr' Hy].
    { symmetry in Hperm. now apply Permutation_nil in Hperm. }
    assert (Hxy : key x = key y).
    { rewrite Forall_forall in Hx, Hy. unfold key_le in Hx, Hy.
      assert (Hin : In x (y :: r'))
        by (apply (Permutation_in _ Hperm); now left).
      assert (Hin' : In y (x :: r))
        by (apply (Permutation_in _ (Permutation_sym Hperm)); now left).
      destruct Hin as [<-|Hin]; [reflexivity|].
      destruct Hin' as [<-|Hin']; [reflexivity|].
      specialize (Hx _ Hin'). specialize (Hy _ Hin). lra. }
    assert (Heq : x = y).
    { specialize (Hkeys (key x)). cbn in Hkeys. unfold key_is in Hkeys.
      rewrite <- Hxy in Hkeys.
      destruct (Req_dec_T (key x) (key x)); [|contradiction].
      now injection Hkeys. }
    subst y. f_equal. apply IH.
    + exact Hr'.
    + now apply Permutation_cons_inv in Hperm.
    + intros k. specialize (Hkeys k). cbn in Hkeys.
      destruct (key_is key k x); [now injection Hkeys | exact Hkeys].
Qed.

(** So [sorted] is the stable ascending sort: whatever algorithm orders
    [l] by ascending key and keeps equal keys in their order produces
    [sorted key l]. *)
Lemma stable_sort_unique l r :
  Permutation r l -> StronglySorted (key_le key) r ->
  (forall k, filter (key_is key k) r = filter (key_is key k) l) ->
  r = Py.sorted key l.
Proof.
  intros Hperm Hr Hkeys. apply ascending_stable_eq.
  - exact Hr.
  - apply sorted_ascending.
  - rewrite Hperm. symmetry. apply sorted_perm.
  - intros k. now rewrite sorted_stable.
Qed.
End SortedFacts.

(** ** Slices *)

Section Slices.
Context {A : Type}.
Implicit Types (l : list A) (n m : Z).

Lemma slice_to_nonneg n l : 0 <= n -> Py.slice_to n l = firstn (Z.to_nat n) l.
Proof.
  intros Hn. unfold Py.slice_to.
  destruct (Z.ltb_spec n 0); [lia | reflexivity].
Qed.

Lemma slice_to_neg n l :
  n < 0 -> Py.slice_to n l = firstn (length l - Z.to_nat (- n)) l.
Proof.
  intros Hn. unfold Py.slice_to.
  destruct (Z.ltb_spec n 0); [|lia]. f_equal. lia.
Qed.

Lemma slice_to_0 l : Py.slice_to 0 l = [].
Proof. reflexivity. Qed.

Lemma slice_to_length n l :
  0 <= n -> length (Py.slice_to n l) = Nat.min (Z.to_nat n) (length l).
Proof. intros Hn. rewrite slice_to_nonneg by assumption. apply length_firstn. Qed.

Lemma slice_to_length_neg n l :
  n < 0 -> length (Py.slice_to n l) = (length l - Z.to_nat (- n))%nat.
Proof.
  intros Hn. rewrite slice_to_neg by assumption.
  rewrite length_firstn. lia.
Qed.

Lemma slice_to_slice_to n m l :
  0 <= n <= m -> Py.slice_to n (Py.slice_to m l) = Py.slice_to n l.
Proof.
  intros Hnm. rewrite !slice_to_nonneg by lia.
  rewrite firstn_firstn. f_equal. lia.
Qed.

Lemma firstn_incl k l : incl (firstn k l) l.
Proof.
  intros x Hx. rewrite <- (firstn_skipn k l). apply in_or_app. now left.
Qed.

Lemma slice_to_incl n l : incl (Py.slice_to n l) l.
Proof. unfold Py.slice_to. destruct (n <? 0); apply firstn_incl. Qed.

Lemma firstn_NoDup k l : NoDup l -> NoDup (firstn k l).
Proof.
  intros Hl. rewrite <- (firstn_skipn k l) in Hl.
  now apply NoDup_app_remove_r in Hl.
Qed.
End Slices.

(** ** Filtering the given words *)

Lemma contains_In ws x : Py.contains ws x = true <-> In x ws.
Proof.
  unfold Py.contains. rewrite existsb_exists. split.
  - intros [y [Hy Heq]]. apply String.eqb_eq in Heq. now subst.
  - intros Hx. exists x. split; [assumption | apply String.eqb_refl].
Qed.

Lemma not_given_avoids w1 w2 w3 t :
  not_given w1 w2 w3 t = true <-> avoids w1 w2 w3 t.
Proof.
  unfold not_given, avoids. rewrite negb_true_iff, <- not_true_iff_false.
  rewrite contains_In. cbn. intuition congruence.
Qed.

Section Counting.
Context {A : Type}.
Implicit Types (p q : A -> bool) (l : list A).

Lemma filter_split_length p l :
  (length (filter p l) + length (filter (fun x => negb (p x)) l))%nat = length l.
Proof.
  induction l as [|x l IH]; [reflexivity|].
  cbn. destruct (p x); cbn; lia.
Qed.

Lemma filter_or_length p q l :
  (length (filter (fun x => p x || q x) l)
   <= length (filter p l) + length (filter q l))%nat.
Proof.
  induction l as [|x l IH]; [reflexivity|].
  cbn. destruct (p x), (q x); cbn; lia.
Qed.
End Counting.

Lemma filter_word_length {B} (w : string) (l : list (string * B)) :
  NoDup (map fst l) ->
  (length (filter (fun t => String.eqb (fst t) w) l) <= 1)%nat.
Proof.
  induction l as [|[k v] l IH]; cbn; [lia|].
  intros Hnd. inversion Hnd as [|? ? Hk Hl]; subst.
  destruct (String.eqb_spec k w) as [->|Hne]; [|now apply IH].
  cbn. rewrite (proj2 (length_zero_iff_nil _)); [lia|].
  destruct (filter _ l) as [|[k' v'] r] eqn:Hf; [reflexivity|].
  exfalso. apply Hk.
  assert (Hin : In (k', v') (filter (fun t => String.eqb (fst t) w) l))
    by (rewrite Hf; now left).
  apply filter_In in Hin. destruct Hin as [Hin Heq]. cbn in Heq.
  apply String.eqb_eq in Heq. subst k'.
  change w with (fst (w, v')). now apply in_map.
Qed.

Lemma filter_given_length {B} (ws : list string) (l : list (string * B)) :
  NoDup (map fst l) ->
  (length (filter (fun t => Py.contains ws (fst t)) l) <= length ws)%nat.
Proof.
  intros Hnd. induction ws as [|w ws IH]; cbn.
  - rewrite (proj2 (length_zero_iff_nil _)); [lia|].
    induction l as [|x l IHl]; [reflexivity|]. cbn.
    apply IHl. now inversion Hnd.
  - pose proof (filter_or_length (fun t => String.eqb (fst t) w)
                  (fun t => Py.contains ws (fst t)) l) as Hor.
    pose proof (filter_word_length w l Hnd) as Hone.
    change (length (filter (fun t => String.eqb (fst t) w
                                     || Py.contains ws (fst t)) l)
            <= S (length ws))%nat.
    etransitivity; [exact Hor|].
    change (S (length ws)) with (1 + length ws)%nat.
    now apply Nat.add_le_mono.
Qed.

Lemma not_given_length w1 w2 w3 (l : list (string * R)) :
  NoDup (map fst l) ->
  (length l <= length (filter (not_given w1 w2 w3) l) + 3)%nat.
Proof.
  intros Hnd.
  pose proof (filter_split_length (fun t => Py.contains [w1; w2; w3] (fst t)) l)
    as Hsplit.
  pose proof (filter_given_length [w1; w2; w3] l Hnd) as Hle.
  cbn [length] in Hle. cbn beta in Hsplit.
  change (filter (not_given w1 w2 w3) l)
    with (filter (fun t => negb (Py.contains [w1; w2; w3] (fst t))) l).
  lia.
Qed.

(** ** Running [analogy] *)

Lemma print_tuples_run l s :
  print_tuples l s
  = (Ok tt, mkState (globals s) (stdout s ++ map tuple_line l)).
Proof.
  unfold print_tuples. revert s.
  induction l as [|t l IH]; intros [g out]; cbn.
  - now rewrite app_nil_r.
  - unfold bind, Py.print. rewrite IH. cbn. now rewrite <- app_assoc.
Qed.

Lemma analogy_run {F : Float32} w1 w2 w3 n fg s q cands :
  analogy_query w1 w2 w3 s = (Ok q, s) ->
  closest q closest_default_n s = (Ok cands, s) ->
  analogy_yields w1 w2 w3 n fg s
    (Py.slice_to n (if fg then filter (not_given w1 w2 w3) cands else cands)).
Proof.
  intros Hq Hc. unfold analogy_yields, analogy.
  destruct s as [g out]. unfold bind at 1. cbn [Py.print globals stdout].
  pose proof (reads_analogy_query w1 w2 w3) as [fq Hfq].
  pose proof (reads_closest q closest_default_n) as [fc Hfc].
  rewrite Hfq in Hq. cbn in Hq. injection Hq as Hq.
  rewrite Hfc in Hc. cbn in Hc. injection Hc as Hc.
  erewrite bind_Ok by (rewrite Hfq; cbn; rewrite Hq; reflexivity).
  erewrite bind_Ok by (rewrite Hfc; cbn; rewrite Hc; reflexivity).
  rewrite print_tuples_run. cbn. rewrite <- app_assoc. reflexivity.
Qed.

Lemma zip_with_length f a b :
  length a = length b -> length (Torch.zip_with f a b) = length a.
Proof.
  intros Hlen. unfold Torch.zip_with.
  rewrite length_map, length_combine. lia.
Qed.

Lemma zip_with_nth f a b k :
  length a = length b -> (k < length a)%nat ->
  nth k (Torch.zip_with f a b) 0%R = f (nth k a 0%R) (nth k b 0%R).
Proof.
  revert b k. induction a as [|x a IH]; intros [|y b] k; cbn; try lia.
  intros [= Hlen] Hk. destruct k as [|k]; [reflexivity|].
  apply IH; [assumption | lia].
Qed.

Section AnalogyQuery.
Context {F : Float32}.
Variable g : Globals.
Hypothesis Hwf : wf_table g.

Lemma analogy_query_run w1 w2 w3 i1 i2 i3 out :
  In (w1, i1) (wv_dict g) -> In (w2, i2) (wv_dict g) ->
  In (w3, i3) (wv_dict g) ->
  analogy_query w1 w2 w3 (mkState g out)
  = (Ok (Torch.zip_with fadd
           (Torch.zip_with fsub (vector g i2) (vector g i1)) (vector g i3)),
     mkState g out).
Proof.
  intros H1 H2 H3. unfold analogy_query.
  pose proof (vector_length g Hwf i1 (item_in_range g Hwf _ _ H1)) as L1.
  pose proof (vector_length g Hwf i2 (item_in_range g Hwf _ _ H2)) as L2.
  pose proof (vector_length g Hwf i3 (item_in_range g Hwf _ _ H3)) as L3.
  erewrite bind_Ok by (exact (get_word_item g Hwf w2 i2 out H2)).
  erewrite bind_Ok by (exact (get_word_item g Hwf w1 i1 out H1)).
  erewrite bind_Ok by (apply elementwise_same_size; congruence).
  erewrite bind_Ok by (exact (get_word_item g Hwf w3 i3 out H3)).
  apply elementwise_same_size. rewrite zip_with_length; congruence.
Qed.

Lemma analogy_query_length i1 i2 i3 :
  0 <= i1 < Z.of_nat (length (wv_arr g)) ->
  0 <= i2 < Z.of_nat (length (wv_arr g)) ->
  0 <= i3 < Z.of_nat (length (wv_arr g)) ->
  length (Torch.zip_with fadd
            (Torch.zip_with fsub (vector g i2) (vector g i1)) (vector g i3))
  = wv_size g.
Proof.
  intros H1 H2 H3.
  pose proof (vector_length g Hwf i1 H1) as L1.
  pose proof (vector_length g Hwf i2 H2) as L2.
  pose proof (vector_length g Hwf i3 H3) as L3.
  rewrite zip_with_length; rewrite zip_with_length; congruence.
Qed.

Lemma candidates_NoDup d n :
  NoDup (map fst (Py.slice_to n (Py.sorted snd (map (entry_dist g d) (wv_dict g))))).
Proof.
  unfold Py.slice_to. destruct (n <? 0); rewrite <- firstn_map;
    apply firstn_NoDup;
    apply (Permutation_NoDup
             (Permutation_map fst (Permutation_sym (sorted_perm snd _))));
    rewrite entry_words; apply (wf_keys g Hwf).
Qed.
End AnalogyQuery.

(** ** The fixtures, evaluated *)

Local Open Scope string_scope.

Lemma euclid_1d a b c :
  (0 <= c)%R -> ((a - b) * (a - b) = c * c)%R -> euclid [a] [b] = c.
Proof.
  intros Hc Hsq. unfold euclid, Torch.sum_sq, Torch.zip_with. cbn.
  rewrite Rplus_0_r, Hsq. now apply sqrt_square.
Qed.

Ltac wf_fixture :=
  constructor; cbn;
  [ repeat (constructor; [cbn; intuition discriminate|]); constructor
  | repeat (constructor; [cbn; lia|]); constructor
  | repeat (constructor; [reflexivity|]); constructor ].

Lemma royal_table_wf : wf_table royal_table.
Proof. wf_fixture. Qed.

Lemma spelling_table_wf : wf_table spelling_table.
Proof. wf_fixture. Qed.


Lemma royal_dists :
  map (entry_dist royal_table royal_query) (wv_dict royal_table)
  = [("the", 17%R); ("king", 2%R); ("man", 1%R); ("queen", 3%R);
     ("woman", 0%R); ("girl", 1%R); ("she", 2%R); ("teenager", 4%R);
     ("boy", 5%R); ("prince", 6%R); ("castle", 8%R)].
Proof.
  cbv [entry_dist vector royal_query Torch.zip_with royal_table wv_dict wv_arr
       map combine fst snd nth Z.to_nat Pos.to_nat Pos.iter_op Nat.add].
  repeat f_equal; apply euclid_1d; lra.
Qed.

Ltac run_sorted :=
  repeat rewrite sorted_cons; rewrite sorted_nil;
  repeat first
    [ rewrite insert_nil
    | rewrite insert_lt by (cbn [snd]; lra)
    | rewrite insert_ge by (cbn [snd]; lra) ].

Lemma royal_sorted :
  Py.sorted snd
    [("the", 17%R); ("king", 2%R); ("man", 1%R); ("queen", 3%R);
     ("woman", 0%R); ("girl", 1%R); ("she", 2%R); ("teenager", 4%R);
     ("boy", 5%R); ("prince", 6%R); ("castle", 8%R)]
  = [("woman", 0%R); ("man", 1%R); ("girl", 1%R); ("king", 2%R);
     ("she", 2%R); ("queen", 3%R); ("teenager", 4%R); ("boy", 5%R);
     ("prince", 6%R); ("castle", 8%R); ("the", 17%R)].
Proof. run_sorted. reflexivity. Qed.

Lemma royal_candidates out :
  closest royal_query closest_default_n (mkState royal_table out)
  = (Ok [("woman", 0%R); ("man", 1%R); ("girl", 1%R); ("king", 2%R);
         ("she", 2%R); ("queen", 3%R); ("teenager", 4%R); ("boy", 5%R);
         ("prince", 6%R); ("castle", 8%R)],
     mkState royal_table out).
Proof.
  rewrite (closest_run royal_table royal_table_wf) by reflexivity.
  rewrite royal_dists, royal_sorted. reflexivity.
Qed.

Lemma royal_analogy_query out :
  analogy_query (F := exact_float) "king" "man" "queen" (mkState royal_table out)
  = (Ok royal_query, mkState royal_table out).
Proof.
  apply (analogy_query_run (F := exact_float) royal_table royal_table_wf
           "king" "man" "queen" 1 2 3);
    cbn; tauto.
Qed.

(** The query of the fixture does not depend on how float32 rounds: it
    is [royal_query] under every arithmetic that computes [2 - 5] and
    [-3 + 6] exactly, as float32 does. *)
Lemma royal_analogy_query_any_rounding {F : Float32} out :
  fsub 2%R 5%R = (2 - 5)%R -> fadd (2 - 5)%R 6%R = (2 - 5 + 6)%R ->
  analogy_query "king" "man" "queen" (mkState royal_table out)
  = (Ok royal_query, mkState royal_table out).
Proof.
  intros Hsub Hadd.
  rewrite (analogy_query_run royal_table royal_table_wf
             "king" "man" "queen" 1 2 3) by (cbn; tauto).
  cbv [vector royal_table wv_arr nth Z.to_nat Pos.to_nat Pos.iter_op Nat.add
       Torch.zip_with combine map fst snd royal_query].
  now rewrite Hsub, Hadd.
Qed.

Lemma spelling_dists :
  map (entry_dist spelling_table [1%R; 2%R]) (wv_dict spelling_table)
  = [("colour", 0%R); ("color", 0%R); ("shade", 5%R)].
Proof.
  cbv [entry_dist vector spelling_table wv_dict wv_arr
       map fst snd nth Z.to_nat Pos.to_nat Pos.iter_op Nat.add].
  repeat f_equal; try apply euclid_refl.
  unfold euclid, Torch.sum_sq, Torch.zip_with. cbn.
  replace ((1 - 4) * (1 - 4) + ((2 - 6) * (2 - 6) + 0))%R with (5 * 5)%R by lra.
  apply sqrt_square. lra.
Qed.





Lemma spelling_sorted :
  Py.sorted snd [("colour", 0%R); ("color", 0%R); ("shade", 5%R)]
  = [("colour", 0%R); ("color", 0%R); ("shade", 5%R)].
Proof. run_sorted. reflexivity. Qed.

Local Close Scope string_scope.

(** * The claims *)

Local Open Scope string_scope.

(** ** Analogy *)

Lemma filtered_avoids w1 w2 w3 n (l : list (string * R)) :
  Forall (avoids w1 w2 w3) (Py.slice_to n (filter (not_given w1 w2 w3) l)).
Proof.
  apply Forall_forall. intros t Ht.
  apply slice_to_incl, filter_In in Ht.
  now apply not_given_avoids.
Qed.

Lemma analogy_candidates_run {F : Float32} g w1 w2 w3 out :
  wf_table g -> has_word g w1 -> has_word g w2 -> has_word g w3 ->
  exists q,
    length q = wv_size g /\
    analogy_query w1 w2 w3 (mkState g out) = (Ok q, mkState g out) /\
    closest q closest_default_n (mkState g out)
    = (Ok (Py.slice_to closest_default_n
             (Py.sorted snd (map (entry_dist g q) (wv_dict g)))),
       mkState g out).
Proof.
  intros Hwf H1 H2 H3.
  apply has_word_In in H1, H2, H3.
  destruct H1 as [i1 H1], H2 as [i2 H2], H3 as [i3 H3].
  eexists. split; [|split].
  2: exact (analogy_query_run g Hwf w1 w2 w3 i1 i2 i3 out H1 H2 H3).
  - apply analogy_query_length; [assumption|..];
      eapply item_in_range; eassumption.
  - apply closest_run; [assumption|].
    apply analogy_query_length; [assumption|..];
      eapply item_in_range; eassumption.
Qed.

(** C1, as amended.  On a table that holds [w1], [w2] and [w3], [analogy]
    obtains the 10 nearest neighbours of its query (the default of
    [closest], whatever [n] is).  With [filter_given] it removes the
    candidates equal to [w1], [w2] or [w3] and shows the first [n] of the
    rest, which are exactly [n] entries whenever [0 <= n <= 7] and the
    table has at least [n + 3] words.  Without [filter_given] it shows the
    first [n] of the 10 candidates, which are the [n] nearest neighbours
    of the query whenever [0 <= n <= 10]. *)
Theorem analogy_ten_candidates {F : Float32} g w1 w2 w3 n out :
  wf_table g -> has_word g w1 -> has_word g w2 -> has_word g w3 ->
  let s := mkState g out in
  exists q cands,
    analogy_query w1 w2 w3 s = (Ok q, s) /\
    closest q 10 s = (Ok cands, s) /\
    length cands = Nat.min 10 (size g) /\
    analogy_yields w1 w2 w3 n true s
      (Py.slice_to n (filter (not_given w1 w2 w3) cands)) /\
    (0 <= n <= 7 -> n + 3 <= Z.of_nat (size g) ->
     length (Py.slice_to n (filter (not_given w1 w2 w3) cands)) = Z.to_nat n) /\
    analogy_yields w1 w2 w3 n false s (Py.slice_to n cands) /\
    (0 <= n <= 10 -> closest q n s = (Ok (Py.slice_to n cands), s)).
Proof.
  intros Hwf H1 H2 H3 s.
  destruct (analogy_candidates_run g w1 w2 w3 out Hwf H1 H2 H3)
    as (q & Hlen & Hq & Hc).
  exists q, (Py.slice_to closest_default_n
               (Py.sorted snd (map (entry_dist g q) (wv_dict g)))).
  assert (Hcands :
    length (Py.slice_to closest_default_n
              (Py.sorted snd (map (entry_dist g q) (wv_dict g))))
    = Nat.min 10 (size g)).
  { rewrite slice_to_length by (unfold closest_default_n; lia).
    rewrite sorted_length, length_map. reflexivity. }
  repeat split.
  - exact Hq.
  - exact Hc.
  - exact Hcands.
  - exact (analogy_run w1 w2 w3 n true s q _ Hq Hc).
  - intros Hn Hsize. rewrite slice_to_length by lia.
    pose proof (not_given_length w1 w2 w3 _ (candidates_NoDup g Hwf q closest_default_n))
      as Hkeep.
    rewrite Hcands in Hkeep. lia.
  - exact (analogy_run w1 w2 w3 n false s q _ Hq Hc).
  - intros Hn. subst s. rewrite closest_run by assumption.
    rewrite slice_to_slice_to by (unfold closest_default_n; lia). reflexivity.
Qed.

Lemma analogy_ten_candidates_witness :
  wf_table royal_table /\
  exists q cands,
    analogy_query (F := exact_float) "king" "man" "queen" (mkState royal_table [])
    = (Ok q, mkState royal_table []) /\
    closest q 10 (mkState royal_table []) = (Ok cands, mkState royal_table []) /\
    length cands = 10%nat /\
    analogy_yields (F := exact_float) "king" "man" "queen" 5 true (mkState royal_table [])
      (Py.slice_to 5 (filter (not_given "king" "man" "queen") cands)) /\
    length (Py.slice_to 5 (filter (not_given "king" "man" "queen") cands)) = 5%nat /\
    analogy_yields (F := exact_float) "king" "man" "queen" 5 false (mkState royal_table [])
      (Py.slice_to 5 cands) /\
    closest q 5 (mkState royal_table [])
    = (Ok (Py.slice_to 5 cands), mkState royal_table []).
Proof.
  split; [wf_fixture|].
  destruct (analogy_ten_candidates (F := exact_float) royal_table "king" "man" "queen" 5 [])
    as (q & cands & Hq & Hc & Hlen & Hshown & Hn & Hplain & Hnearest).
  - wf_fixture.
  - cbn; tauto.
  - cbn; tauto.
  - cbn; tauto.
  - exists q, cands. repeat split; try assumption.
    + apply Hn; cbn; lia.
    + apply Hnearest; lia.
Defined.

(** C1 as stated fails: the table has 11 words, [n] is 8 and the three
    given words are among the ten candidates, so 7 entries are shown. *)
Lemma analogy_eight_of_eleven :
  wf_table royal_table /\
  has_word royal_table "king" /\ has_word royal_table "man" /\
  has_word royal_table "queen" /\
  8 + 3 <= Z.of_nat (size royal_table) /\
  exists l,
    analogy_yields (F := exact_float) "king" "man" "queen" 8 true (mkState royal_table []) l /\
    l = [("woman", 0%R); ("girl", 1%R); ("she", 2%R); ("teenager", 4%R);
         ("boy", 5%R); ("prince", 6%R); ("castle", 8%R)] /\
    length l <> Z.to_nat 8.
Proof.
  split; [exact royal_table_wf|].
  repeat (split; [cbn; tauto|]).
  split; [cbn; lia|].
  eexists. split; [|split; [reflexivity|]].
  - exact (analogy_run "king" "man" "queen" 8 true (mkState royal_table [])
             royal_query _ (royal_analogy_query []) (royal_candidates [])).
  - cbn. lia.
Qed.

(** The notebook's classic example on the fixture: the five words shown
    for king : man :: queen : (?). *)
Example analogy_classic :
  analogy_yields (F := exact_float) "king" "man" "queen" 5 true (mkState royal_table [])
    [("woman", 0%R); ("girl", 1%R); ("she", 2%R); ("teenager", 4%R);
     ("boy", 5%R)].
Proof.
  exact (analogy_run "king" "man" "queen" 5 true (mkState royal_table [])
           royal_query _ (royal_analogy_query []) (royal_candidates [])).
Qed.

(** C5.  On a table that holds [w1], [w2] and [w3], for every [n],
    [analogy] with [filter_given] completes and no entry of the sequence
    it shows has a word equal to [w1], [w2] or [w3]. *)
Theorem analogy_omits_given {F : Float32} g w1 w2 w3 n out :
  wf_table g -> has_word g w1 -> has_word g w2 -> has_word g w3 ->
  exists l,
    analogy_yields w1 w2 w3 n true (mkState g out) l /\
    Forall (avoids w1 w2 w3) l.
Proof.
  intros Hwf H1 H2 H3.
  destruct (analogy_candidates_run g w1 w2 w3 out Hwf H1 H2 H3)
    as (q & _ & Hq & Hc).
  eexists. split.
  - exact (analogy_run w1 w2 w3 n true _ q _ Hq Hc).
  - apply filtered_avoids.
Qed.

Lemma analogy_omits_given_witness :
  wf_table royal_table /\
  exists l,
    analogy_yields (F := exact_float) "king" "man" "queen" 5 true (mkState royal_table []) l /\
    Forall (avoids "king" "man" "queen") l.
Proof.
  split; [wf_fixture|].
  apply (analogy_omits_given (F := exact_float) royal_table "king" "man" "queen" 5 []).
  - wf_fixture.
  - cbn; tauto.
  - cbn; tauto.
  - cbn; tauto.
Defined.

(** C6.  On a table that holds [w1], [w2] and [w3], the query that
    [analogy] passes to [closest] is [get_word w2 - get_word w1 +
    get_word w3], component by component over the [wv_size] components:
    each component is torch's float32 difference of the components of
    [w2] and [w1], to which the component of [w3] is added in float32. *)
Theorem analogy_query_arithmetic {F : Float32} g w1 w2 w3 n fg out :
  wf_table g -> has_word g w1 -> has_word g w2 -> has_word g w3 ->
  let s := mkState g out in
  exists v1 v2 v3 q,
    get_word w1 s = (Ok v1, s) /\
    get_word w2 s = (Ok v2, s) /\
    get_word w3 s = (Ok v3, s) /\
    length q = wv_size g /\
    (forall k, (k < wv_size g)%nat ->
       nth k q 0%R = fadd (fsub (nth k v2 0%R) (nth k v1 0%R)) (nth k v3 0%R)) /\
    analogy_query w1 w2 w3 s = (Ok q, s) /\
    analogy w1 w2 w3 n fg s
    = (Py.print (HeaderLine w1 w2 w3) ;;
       closest_words <- closest q closest_default_n ;;
       print_tuples
         (Py.slice_to n
            (if fg then filter (not_given w1 w2 w3) closest_words
             else closest_words))) s.
Proof.
  intros Hwf H1 H2 H3 s.
  apply has_word_In in H1, H2, H3.
  destruct H1 as [i1 H1], H2 as [i2 H2], H3 as [i3 H3].
  pose proof (vector_length g Hwf i1 (item_in_range g Hwf _ _ H1)) as L1.
  pose proof (vector_length g Hwf i2 (item_in_range g Hwf _ _ H2)) as L2.
  pose proof (vector_length g Hwf i3 (item_in_range g Hwf _ _ H3)) as L3.
  pose proof (analogy_query_run g Hwf w1 w2 w3 i1 i2 i3 out H1 H2 H3) as Hq.
  exists (vector g i1), (vector g i2), (vector g i3).
  exists (Torch.zip_with fadd
            (Torch.zip_with fsub (vector g i2) (vector g i1)) (vector g i3)).
  repeat split.
  - now apply get_word_item.
  - now apply get_word_item.
  - now apply get_word_item.
  - apply analogy_query_length; [assumption|..];
      eapply item_in_range; eassumption.
  - intros k Hk.
    rewrite zip_with_nth
      by (rewrite zip_with_length by congruence; (congruence || lia)).
    rewrite zip_with_nth by (congruence || lia). reflexivity.
  - exact Hq.
  - unfold analogy. subst s. unfold bind at 1 3. cbn [Py.print].
    erewrite bind_Ok; [reflexivity|].
    exact (reads_run _ g out _ _ (reads_analogy_query w1 w2 w3) Hq).
Qed.

Lemma analogy_query_arithmetic_witness :
  wf_table royal_table /\
  exists v1 v2 v3 q,
    get_word "king" (mkState royal_table []) = (Ok v1, mkState royal_table []) /\
    get_word "man" (mkState royal_table []) = (Ok v2, mkState royal_table []) /\
    get_word "queen" (mkState royal_table []) = (Ok v3, mkState royal_table []) /\
    length q = wv_size royal_table /\
    (forall k, (k < wv_size royal_table)%nat ->
       nth k q 0%R = (nth k v2 0 - nth k v1 0 + nth k v3 0)%R) /\
    analogy_query (F := exact_float) "king" "man" "queen" (mkState royal_table [])
    = (Ok q, mkState royal_table []) /\
    analogy (F := exact_float) "king" "man" "queen" 5 true (mkState royal_table [])
    = (Py.print (HeaderLine "king" "man" "queen") ;;
       closest_words <- closest q closest_default_n ;;
       print_tuples
         (Py.slice_to 5 (filter (not_given "king" "man" "queen") closest_words)))
        (mkState royal_table []).
Proof.
  split; [wf_fixture|].
  apply (analogy_query_arithmetic (F := exact_float) royal_table "king" "man" "queen" 5 true []).
  - wf_fixture.
  - cbn; tauto.
  - cbn; tauto.
  - cbn; tauto.
Defined.

(** ** Lookup *)

Lemma has_word_dec g w : {has_word g w} + {~ has_word g w}.
Proof. apply in_dec, string_dec. Qed.

Lemma analogy_query_raises {F : Float32} w1 w2 w3 n fg s e :
  analogy_query w1 w2 w3 s = (Raise e, s) ->
  fst (analogy w1 w2 w3 n fg s) = Raise e.
Proof.
  intros Hq. unfold analogy. destruct s as [g out].
  unfold bind at 1. cbn [Py.print globals stdout].
  erewrite bind_Raise; [reflexivity|].
  exact (reads_run _ g out _ _ (reads_analogy_query w1 w2 w3) Hq).
Qed.

(** C7.  [get_word] returns the stored vector exactly when the word is a
    key of the table, under equality of strings, and raises [KeyError]
    exactly when it is not; and [analogy] raises the [KeyError] of
    [get_word] whenever one of its three words is not in the table. *)
Theorem get_word_total {F : Float32} g out :
  wf_table g ->
  let s := mkState g out in
  (forall w i, In (w, i) (wv_dict g) ->
     nth_error (wv_arr g) (Z.to_nat i) = Some (vector g i) /\
     get_word w s = (Ok (vector g i), s)) /\
  (forall w, has_word g w <-> exists v, get_word w s = (Ok v, s)) /\
  (forall w, ~ has_word g w <-> get_word w s = (Raise (KeyError w), s)) /\
  (forall w1 w2 w3 n fg,
     ~ has_word g w1 \/ ~ has_word g w2 \/ ~ has_word g w3 ->
     exists w, In w [w1; w2; w3] /\ ~ has_word g w /\
               fst (analogy w1 w2 w3 n fg s) = Raise (KeyError w)).
Proof.
  intros Hwf s.
  assert (Hpresent : forall w, has_word g w -> exists v, get_word w s = (Ok v, s)).
  { intros w Hw. apply has_word_In in Hw. destruct Hw as [i Hi].
    exists (vector g i). now apply get_word_item. }
  split; [|repeat split].
  - intros w i Hin. split; [|now apply get_word_item].
    apply nth_error_nth'. pose proof (item_in_range g Hwf w i Hin). lia.
  - apply Hpresent.
  - intros [v Hv]. destruct (has_word_dec g w) as [Hw|Hw]; [assumption|].
    subst s. rewrite get_word_absent in Hv by assumption. discriminate.
  - intros Hw. now apply get_word_absent.
  - intros Hr Hw. destruct (Hpresent w Hw) as [v Hv]. congruence.
  - intros w1 w2 w3 n fg Habsent.
    destruct (has_word_dec g w2) as [H2|H2]; cycle 1.
    { exists w2. repeat split; [cbn; tauto | assumption|].
      apply analogy_query_raises. unfold analogy_query.
      erewrite bind_Raise; [reflexivity | now apply get_word_absent]. }
    destruct (has_word_dec g w1) as [H1|H1]; cycle 1.
    { exists w1. repeat split; [cbn; tauto | assumption|].
      apply analogy_query_raises. unfold analogy_query.
      destruct (Hpresent w2 H2) as [v2 Hv2].
      erewrite bind_Ok by exact Hv2.
      erewrite bind_Raise; [reflexivity | now apply get_word_absent]. }
    assert (H3 : ~ has_word g w3) by tauto.
    exists w3. repeat split; [cbn; tauto | assumption|].
    apply analogy_query_raises. unfold analogy_query.
    apply has_word_In in H1, H2. destruct H1 as [i1 H1], H2 as [i2 H2].
    erewrite bind_Ok by exact (get_word_item g Hwf w2 i2 out H2).
    erewrite bind_Ok by exact (get_word_item g Hwf w1 i1 out H1).
    erewrite bind_Ok; cycle 1.
    { apply elementwise_same_size.
      rewrite !(vector_length g Hwf);
        [reflexivity | eapply item_in_range; eassumption
         | eapply item_in_range; eassumption]. }
    erewrite bind_Raise; [reflexivity | now apply get_word_absent].
Qed.

Lemma get_word_total_witness :
  wf_table royal_table /\
  get_word "king" (mkState royal_table []) = (Ok [5%R], mkState royal_table []) /\
  get_word "King" (mkState royal_table [])
  = (Raise (KeyError "King"), mkState royal_table []) /\
  exists w, In w ["king"; "man"; "kween"] /\ ~ has_word royal_table w /\
    fst (analogy (F := exact_float) "king" "man" "kween" 5 true (mkState royal_table []))
    = Raise (KeyError w).
Proof.
  pose proof (get_word_total (F := exact_float) royal_table [] ltac:(wf_fixture))
    as (Hvec & _ & Habsent & Hanalogy).
  split; [wf_fixture|]. split; [|split].
  - apply (Hvec "king" 1). cbn; tauto.
  - apply Habsent. cbn. intuition discriminate.
  - apply Hanalogy. right. right. cbn. intuition discriminate.
Defined.

(** ** Determinism and frame *)

(** C8.  Two calls of [closest], or of [analogy], with the same arguments
    in states that hold the same table produce the same outcome, and the
    two calls of [analogy] show the same lines; so does a call repeated
    right after the first. *)
Theorem calls_deterministic {F : Float32} q n w1 w2 w3 m fg s1 s2 :
  globals s1 = globals s2 ->
  fst (closest q n s1) = fst (closest q n s2) /\
  fst (analogy w1 w2 w3 m fg s1) = fst (analogy w1 w2 w3 m fg s2) /\
  (exists shown,
     stdout (snd (analogy w1 w2 w3 m fg s1)) = (stdout s1 ++ shown)%list /\
     stdout (snd (analogy w1 w2 w3 m fg s2)) = (stdout s2 ++ shown)%list) /\
  fst (closest q n (snd (closest q n s1))) = fst (closest q n s1) /\
  fst (analogy w1 w2 w3 m fg (snd (analogy w1 w2 w3 m fg s1)))
  = fst (analogy w1 w2 w3 m fg s1).
Proof.
  intros Hg.
  destruct (prints_analogy w1 w2 w3 m fg) as [f Hf].
  repeat split.
  - now apply reads_result; [apply reads_closest|].
  - now rewrite !Hf, Hg.
  - exists (snd (f (globals s1))). rewrite !Hf. cbn. now rewrite Hg.
  - now rewrite (reads_state (closest q n) s1 (reads_closest q n)).
  - now rewrite !Hf.
Qed.

Lemma calls_deterministic_witness :
  globals (mkState royal_table [])
  = globals (mkState royal_table [HeaderLine "cat" "kitten" "dog"]) /\
  fst (closest royal_query 3 (mkState royal_table []))
  = fst (closest royal_query 3
           (mkState royal_table [HeaderLine "cat" "kitten" "dog"])) /\
  fst (analogy (F := exact_float) "king" "man" "queen" 5 true (mkState royal_table []))
  = fst (analogy (F := exact_float) "king" "man" "queen" 5 true
           (mkState royal_table [HeaderLine "cat" "kitten" "dog"])).
Proof.
  split; [reflexivity|].
  destruct (calls_deterministic (F := exact_float) royal_query 3 "king" "man" "queen" 5 true
              (mkState royal_table [])
              (mkState royal_table [HeaderLine "cat" "kitten" "dog"]))
    as (Hclosest & Hanalogy & _).
  - reflexivity.
  - split; assumption.
Defined.

(** C9.  [get_word] and [closest] return the state they were given, so
    they change neither the table nor standard output; [analogy] leaves
    the table as it was and only adds lines to standard output; and what
    each of them returns and shows is a function of the table and the
    arguments. *)
Theorem operations_frame {F : Float32} w q n w1 w2 w3 m fg :
  (forall s, snd (get_word w s) = s) /\
  (forall s, snd (closest q n s) = s) /\
  (forall s, globals (snd (analogy w1 w2 w3 m fg s)) = globals s /\
             exists shown,
               stdout (snd (analogy w1 w2 w3 m fg s)) = (stdout s ++ shown)%list) /\
  reads (get_word w) /\ reads (closest q n) /\ prints (analogy w1 w2 w3 m fg).
Proof.
  repeat split.
  - intros s. apply reads_state, reads_get_word.
  - intros s. apply reads_state, reads_closest.
  - destruct (prints_analogy w1 w2 w3 m fg) as [f Hf]. now rewrite Hf.
  - destruct (prints_analogy w1 w2 w3 m fg) as [f Hf].
    exists (snd (f (globals s))). now rewrite Hf.
  - apply reads_get_word.
  - apply reads_closest.
  - apply prints_analogy.
Qed.

(** ** The scan of [closest] *)

Lemma dict_get_key d w : In w (Py.keys d) -> exists i, Py.dict_get d w = Some i.
Proof.
  intros Hw. destruct (Py.dict_get d w) as [i|] eqn:Hget; [now exists i|].
  apply dict_get_None in Hget. contradiction.
Qed.

Lemma scan_no_KeyError g d out l k :
  incl l (Py.keys (wv_dict g)) ->
  fst (mapM (fun w => v <- get_word w ;; x <- Torch.dist d v ;; ret (w, x))
         l (mkState g out))
  <> Raise (KeyError k).
Proof.
  intros Hincl. induction l as [|w l IH]; [discriminate|].
  assert (Hw : In w (Py.keys (wv_dict g))) by (apply Hincl; now left).
  assert (Hl : incl l (Py.keys (wv_dict g)))
    by (intros x Hx; apply Hincl; now right).
  destruct (dict_get_key _ _ Hw) as [i Hi].
  cbn [mapM]. unfold bind at 1. unfold bind at 1.
  rewrite get_word_eq. cbn [globals]. rewrite Hi.
  destruct (Torch.row (wv_arr g) i) as [v|]; [|discriminate].
  unfold bind at 1, Torch.dist.
  destruct (Torch.broadcast d v) as [[d' v']|]; [|discriminate].
  cbn [ret]. unfold bind at 1.
  pose proof (reads_state
                (mapM (fun w => v <- get_word w ;; x <- Torch.dist d v ;; ret (w, x)) l)
                (mkState g out)
                (reads_mapM _ l (fun w =>
                   reads_bind _ _ (reads_get_word w) (fun v =>
                     reads_bind _ _ (reads_dist d v) (fun x => reads_ret (w, x))))))
    as Hst.
  specialize (IH Hl).
  destruct (mapM _ l (mkState g out)) as [[ys|e] s']; cbn in *.
  - discriminate.
  - exact IH.
Qed.

(** C10.  The scan of [closest] never raises [KeyError], on any table:
    the words it iterates are the keys of [wv_dict].  On a table whose
    indices are rows of [wv_arr] and for a query of the table's dimension
    it raises nothing, and its pairs carry the words of the table in
    iteration order, each word once. *)
Theorem scan_lookups_succeed g q out :
  (forall k, fst (all_dists q (mkState g out)) <> Raise (KeyError k)) /\
  (wf_table g -> length q = wv_size g ->
   exists dists,
     all_dists q (mkState g out) = (Ok dists, mkState g out) /\
     map fst dists = Py.keys (wv_dict g) /\
     (forall w, has_word g w -> count_occ string_dec (map fst dists) w = 1%nat) /\
     (forall w, ~ has_word g w -> count_occ string_dec (map fst dists) w = 0%nat)).
Proof.
  split.
  - intros k. unfold all_dists. erewrite bind_Ok by reflexivity.
    apply scan_no_KeyError, incl_refl.
  - intros Hwf Hq. exists (map (entry_dist g q) (wv_dict g)).
    rewrite entry_words. repeat split.
    + now apply all_dists_run.
    + intros w Hw. apply NoDup_count_occ'; [apply (wf_keys g Hwf) | exact Hw].
    + intros w Hw. now apply count_occ_not_In.
Qed.

Lemma scan_lookups_succeed_witness :
  wf_table royal_table /\ length royal_query = wv_size royal_table /\
  exists dists,
    all_dists royal_query (mkState royal_table [])
    = (Ok dists, mkState royal_table []) /\
    map fst dists = Py.keys (wv_dict royal_table) /\
    (forall w, has_word royal_table w ->
       count_occ string_dec (map fst dists) w = 1%nat) /\
    (forall w, ~ has_word royal_table w ->
       count_occ string_dec (map fst dists) w = 0%nat).
Proof.
  split; [wf_fixture|]. split; [reflexivity|].
  apply (proj2 (scan_lookups_succeed royal_table royal_query []));
    [wf_fixture | reflexivity].
Defined.

(** ** Nearest neighbours *)

(** C2, as amended.  For a query of the table's dimension and every
    [n >= 0], [closest] computes for every item of the table the pair of
    its word and the Euclidean distance [sqrt (sum_i (q_i - v_i)^2)] of
    its vector to the query, orders the pairs by ascending distance,
    pairs at one distance staying in the table's iteration order, and
    returns the first [n]: [min n (size g)] pairs. *)
Theorem closest_ranks g q n out :
  wf_table g -> length q = wv_size g -> 0 <= n ->
  let s := mkState g out in
  let dists :=
    map (fun p => (fst p, euclidean_distance (wv_size g) q (vector g (snd p))))
        (wv_dict g) in
  let ranked := Py.sorted snd dists in
  all_dists q s = (Ok dists, s) /\
  Permutation ranked dists /\
  StronglySorted dist_le ranked /\
  (forall x, at_dist x ranked = at_dist x dists) /\
  closest q n s = (Ok (firstn (Z.to_nat n) ranked), s) /\
  length (firstn (Z.to_nat n) ranked) = Nat.min (Z.to_nat n) (size g).
Proof.
  intros Hwf Hq Hn s dists ranked.
  assert (Hdists : map (entry_dist g q) (wv_dict g) = dists).
  { apply map_ext_in. intros [w i] Hin. unfold entry_dist. cbn [fst snd].
    rewrite euclid_components, Hq; [reflexivity|].
    rewrite Hq. symmetry. apply vector_length; [assumption|].
    eapply item_in_range; eassumption. }
  repeat split.
  - rewrite <- Hdists. now apply all_dists_run.
  - apply sorted_perm.
  - apply sorted_ascending.
  - intros x. apply sorted_stable.
  - subst s ranked. rewrite closest_run, Hdists by assumption.
    now rewrite slice_to_nonneg.
  - rewrite length_firstn. subst ranked dists.
    now rewrite sorted_length, length_map.
Qed.

Lemma closest_ranks_witness :
  wf_table royal_table /\ length royal_query = wv_size royal_table /\ 0 <= 3 /\
  closest royal_query 3 (mkState royal_table [])
  = (Ok (firstn (Z.to_nat 3)
           (Py.sorted snd
              (map (fun p => (fst p, euclidean_distance (wv_size royal_table)
                                       royal_query (vector royal_table (snd p))))
                 (wv_dict royal_table)))),
     mkState royal_table []).
Proof.
  split; [wf_fixture|]. split; [reflexivity|]. split; [lia|].
  apply (closest_ranks royal_table royal_query 3 []);
    [wf_fixture | reflexivity | lia].
Defined.

(** C2 as stated fails for a negative [n]: [closest] with [n = -1] on the
    eleven words returns ten pairs, and [min (-1) 11] is no length. *)
Lemma closest_minus_one_length :
  wf_table royal_table /\ length royal_query = wv_size royal_table /\
  exists l,
    closest royal_query (-1) (mkState royal_table []) = (Ok l, mkState royal_table []) /\
    length l = 10%nat /\
    Z.of_nat (length l) <> Z.min (-1) (Z.of_nat (size royal_table)).
Proof.
  split; [exact royal_table_wf|]. split; [reflexivity|].
  eexists. split; [|split].
  - rewrite (closest_run royal_table royal_table_wf) by reflexivity.
    rewrite royal_dists, royal_sorted. reflexivity.
  - reflexivity.
  - cbn. lia.
Qed.




(** On a table without words nothing is compared, and a query of any size
    gets the empty list. *)
Lemma closest_empty_table q n D out :
  closest q n (mkState (mkGlobals [] [] D) out)
  = (Ok [], mkState (mkGlobals [] [] D) out).
Proof.
  unfold closest, all_dists, bind. cbn.
  unfold Py.slice_to. destruct (n <? 0)%Z; now rewrite firstn_nil.
Qed.

(** C4, as amended.  For a word [w] of the table such that no word before
    it in iteration order has the same vector, [closest (get_word w) 1] is
    the single pair of [w] and the distance zero. *)
Theorem closest_self g pre w i post out :
  wf_table g ->
  wv_dict g = (pre ++ (w, i) :: post)%list ->
  (forall p, In p pre -> vector g (snd p) <> vector g i) ->
  let s := mkState g out in
  exists v, get_word w s = (Ok v, s) /\ closest v 1 s = (Ok [(w, 0%R)], s).
Proof.
  intros Hwf Hdict Hpre s.
  assert (Hin : In (w, i) (wv_dict g))
    by (rewrite Hdict; apply in_or_app; right; now left).
  pose proof (vector_length g Hwf i (item_in_range g Hwf _ _ Hin)) as Li.
  exists (vector g i). split; [now apply get_word_item|].
  subst s. rewrite closest_run by assumption.
  rewrite Hdict, map_app. cbn [map].
  rewrite sorted_least.
  - unfold entry_dist at 1. cbn [fst snd]. now rewrite euclid_refl.
  - intros t Ht. apply in_map_iff in Ht. destruct Ht as [p [<- Hp]].
    cbn [entry_dist snd]. rewrite euclid_refl.
    assert (Hp' : In p (wv_dict g))
      by (rewrite Hdict; apply in_or_app; now left).
    apply euclid_pos.
    + rewrite Li. symmetry. apply vector_length; [assumption|].
      destruct p as [k j]. eapply item_in_range; eassumption.
    + intros Heq. now apply (Hpre p Hp).
  - intros t Ht. apply in_map_iff in Ht. destruct Ht as [p [<- Hp]].
    cbn [entry_dist snd]. rewrite euclid_refl. apply euclid_nonneg.
Qed.

Lemma closest_self_witness :
  wf_table spelling_table /\
  exists v,
    get_word "colour" (mkState spelling_table []) = (Ok v, mkState spelling_table []) /\
    closest v 1 (mkState spelling_table [])
    = (Ok [("colour", 0%R)], mkState spelling_table []).
Proof.
  split; [wf_fixture|].
  apply (closest_self spelling_table [] "colour" 0 [("color", 1); ("shade", 2)] []).
  - wf_fixture.
  - reflexivity.
  - intros p [].
Defined.

(** C4 as stated fails: "color" has the vector of "colour", which comes
    first in the table, so the nearest neighbour of "color" is "colour". *)
Lemma closest_of_color :
  wf_table spelling_table /\ has_word spelling_table "color" /\
  exists v,
    get_word "color" (mkState spelling_table []) = (Ok v, mkState spelling_table []) /\
    closest v 1 (mkState spelling_table [])
    = (Ok [("colour", 0%R)], mkState spelling_table []) /\
    closest v 1 (mkState spelling_table [])
    <> (Ok [("color", 0%R)], mkState spelling_table []).
Proof.
  split; [exact spelling_table_wf|]. split; [cbn; tauto|].
  exists [1%R; 2%R].
  assert (Hc : closest [1%R; 2%R] 1 (mkState spelling_table [])
               = (Ok [("colour", 0%R)], mkState spelling_table [])).
  { rewrite (closest_run spelling_table spelling_table_wf) by reflexivity.
    rewrite spelling_dists, spelling_sorted. reflexivity. }
  split; [|split].
  - apply (get_word_item spelling_table spelling_table_wf "color" 1). cbn; tauto.
  - exact Hc.
  - rewrite Hc. intros [= Hw].
Qed.

Local Close Scope string_scope.

(** * Further properties of the notebook's functions *)

Local Open Scope string_scope.

(** ** Lists in ascending order *)

Lemma ascending_app_le {A} (key : A -> R) l1 l2 :
  StronglySorted (key_le key) (l1 ++ l2)%list ->
  forall x y, In x l1 -> In y l2 -> (key x <= key y)%R.
Proof.
  induction l1 as [|a l1 IH]; cbn; intros Hs x y Hx Hy; [contradiction|].
  inversion Hs as [|? ? Hrest Hall]; subst.
  destruct Hx as [<-|Hx].
  - rewrite Forall_forall in Hall. apply Hall, in_or_app. now right.
  - now apply IH.
Qed.

Lemma ascending_firstn {A} (key : A -> R) k l :
  StronglySorted (key_le key) l -> StronglySorted (key_le key) (firstn k l).
Proof.
  intros Hs. revert k. induction Hs as [|a l Hs IH Ha]; intros [|k]; cbn;
    try constructor.
  - apply IH.
  - rewrite Forall_forall in *. intros x Hx. apply Ha.
    now apply (firstn_incl k l).
Qed.

Lemma ascending_filter {A} (key : A -> R) p l :
  StronglySorted (key_le key) l -> StronglySorted (key_le key) (filter p l).
Proof.
  induction 1 as [|a l Hs IH Ha]; cbn; [constructor|].
  destruct (p a); [|exact IH]. constructor; [exact IH|].
  rewrite Forall_forall in *. intros x Hx. apply Ha.
  now apply filter_In in Hx.
Qed.

Lemma ascending_slice_to {A} (key : A -> R) n l :
  StronglySorted (key_le key) l ->
  StronglySorted (key_le key) (Py.slice_to n l).
Proof.
  intros Hs. unfold Py.slice_to. destruct (n <? 0)%Z; now apply ascending_firstn.
Qed.

Lemma slice_to_firstn {A} n (l : list A) :
  exists k, Py.slice_to n l = firstn k l.
Proof. unfold Py.slice_to. destruct (n <? 0)%Z; eexists; reflexivity. Qed.

Lemma slice_to_all {A} n (l : list A) :
  Z.of_nat (length l) <= n -> Py.slice_to n l = l.
Proof.
  intros Hn. rewrite slice_to_nonneg by lia. apply firstn_all2. lia.
Qed.

Lemma slice_to_length_le {A} n (l : list A) :
  (length (Py.slice_to n l) <= length l)%nat.
Proof.
  destruct (slice_to_firstn n l) as [k ->]. rewrite length_firstn. lia.
Qed.

Lemma filter_words_NoDup {B} p (l : list (string * B)) :
  NoDup (map fst l) -> NoDup (map fst (filter p l)).
Proof.
  induction l as [|a l IH]; cbn; [constructor|].
  intros Hnd. inversion Hnd as [|? ? Ha Hl]; subst.
  destruct (p a); cbn; [|now apply IH].
  constructor; [|now apply IH].
  intros Hin. apply Ha. apply in_map_iff in Hin.
  destruct Hin as [t [Ht Hin]]. apply filter_In in Hin.
  apply in_map_iff. exists t. tauto.
Qed.

Lemma slice_words_NoDup {B} n (l : list (string * B)) :
  NoDup (map fst l) -> NoDup (map fst (Py.slice_to n l)).
Proof.
  intros Hnd. destruct (slice_to_firstn n l) as [k ->].
  rewrite <- firstn_map. now apply firstn_NoDup.
Qed.

(** ** The ranking *)

Section Ranking.
Variable g : Globals.
Hypothesis Hwf : wf_table g.

Lemma closest_ranking q n out :
  length q = wv_size g ->
  closest q n (mkState g out) = (Ok (Py.slice_to n (ranking g q)), mkState g out).
Proof. intros Hq. now apply closest_run. Qed.

Lemma ranking_perm q : Permutation (ranking g q) (map (entry_dist g q) (wv_dict g)).
Proof. apply sorted_perm. Qed.

Lemma ranking_ascending q : StronglySorted dist_le (ranking g q).
Proof. apply sorted_ascending. Qed.

Lemma ranking_words_NoDup q : NoDup (map fst (ranking g q)).
Proof.
  apply (Permutation_NoDup
           (Permutation_map fst (Permutation_sym (ranking_perm q)))).
  rewrite entry_words. apply (wf_keys g Hwf).
Qed.

Lemma ranking_In q t :
  In t (ranking g q) <->
  exists i, In (fst t, i) (wv_dict g) /\ snd t = euclid q (vector g i).
Proof.
  split.
  - intros Ht. apply (Permutation_in _ (ranking_perm q)) in Ht.
    apply in_map_iff in Ht. destruct Ht as [[w i] [<- Hin]].
    exists i. cbn. tauto.
  - intros [i [Hin Hd]].
    apply (Permutation_in _ (Permutation_sym (ranking_perm q))).
    apply in_map_iff. exists (fst t, i). split; [|assumption].
    unfold entry_dist. cbn. rewrite <- Hd. now destruct t.
Qed.

Lemma ranking_length q : length (ranking g q) = size g.
Proof. unfold ranking. now rewrite sorted_length, length_map. Qed.
End Ranking.

(** ** [print_tuples] *)

(** X1.  [print_tuples] never raises: it prints one line per entry, in
    the order of the list, each with the entry's distance and word, and
    leaves the globals as they were. *)
Theorem print_tuples_lines l s :
  print_tuples l s
  = (Ok tt, mkState (globals s) (stdout s ++ map tuple_line l)%list) /\
  length (map tuple_line l) = length l /\
  forall k t, nth_error l k = Some t ->
    nth_error (map tuple_line l) k = Some (TupleLine (snd t) (fst t)).
Proof.
  split; [apply print_tuples_run|]. split; [apply length_map|].
  intros k t Hk. now rewrite nth_error_map, Hk.
Qed.

(** ** [closest] *)

(** X2.  Whatever [n] is, every pair [closest] returns is nearer to the
    query than (or as near as) every word of the table it does not
    return. *)
Theorem closest_nearest g q n out :
  wf_table g -> length q = wv_size g ->
  exists res,
    closest q n (mkState g out) = (Ok res, mkState g out) /\
    forall t w i,
      In t res -> In (w, i) (wv_dict g) -> ~ In w (map fst res) ->
      (snd t <= euclid q (vector g i))%R.
Proof.
  intros Hwf Hq. exists (Py.slice_to n (ranking g q)).
  split; [now apply closest_ranking|].
  destruct (slice_to_firstn n (ranking g q)) as [k ->].
  intros t w i Ht Hw Hout.
  assert (Hin : In (w, euclid q (vector g i)) (ranking g q))
    by (apply (proj2 (ranking_In g q _)); exists i; cbn; tauto).
  rewrite <- (firstn_skipn k (ranking g q)) in Hin.
  apply in_app_or in Hin. destruct Hin as [Hin|Hin].
  - exfalso. apply Hout. apply in_map_iff.
    now exists (w, euclid q (vector g i)).
  - pose proof (ranking_ascending g q) as Hs.
    rewrite <- (firstn_skipn k (ranking g q)) in Hs.
    exact (ascending_app_le snd _ _ Hs t (w, euclid q (vector g i)) Ht Hin).
Qed.

Lemma closest_nearest_witness :
  wf_table royal_table /\ length royal_query = wv_size royal_table /\
  exists res,
    closest royal_query 3 (mkState royal_table [])
    = (Ok res, mkState royal_table []) /\
    forall t w i,
      In t res -> In (w, i) (wv_dict royal_table) -> ~ In w (map fst res) ->
      (snd t <= euclid royal_query (vector royal_table i))%R.
Proof.
  split; [wf_fixture|]. split; [reflexivity|].
  apply (closest_nearest royal_table royal_query 3 []);
    [wf_fixture | reflexivity].
Defined.

(** X3.  Whatever [n] is, [closest] returns no word twice, and every
    pair it returns is a word of the table with the distance of that
    word's vector to the query, which is not negative. *)
Theorem closest_returns_table_words g q n out :
  wf_table g -> length q = wv_size g ->
  exists res,
    closest q n (mkState g out) = (Ok res, mkState g out) /\
    NoDup (map fst res) /\
    forall w x, In (w, x) res ->
      (0 <= x)%R /\
      exists i, In (w, i) (wv_dict g) /\ x = euclid q (vector g i).
Proof.
  intros Hwf Hq. exists (Py.slice_to n (ranking g q)).
  split; [now apply closest_ranking|]. split.
  - apply slice_words_NoDup. now apply ranking_words_NoDup.
  - intros w x Hin. apply slice_to_incl in Hin.
    apply (proj1 (ranking_In g q _)) in Hin.
    destruct Hin as [i [Hi Hx]]. cbn in Hi, Hx. split.
    + rewrite Hx. apply euclid_nonneg.
    + now exists i.
Qed.

Lemma closest_returns_table_words_witness :
  wf_table royal_table /\ length royal_query = wv_size royal_table /\
  exists res,
    closest royal_query (-4) (mkState royal_table [])
    = (Ok res, mkState royal_table []) /\
    NoDup (map fst res) /\
    forall w x, In (w, x) res ->
      (0 <= x)%R /\
      exists i, In (w, i) (wv_dict royal_table) /\
                x = euclid royal_query (vector royal_table i).
Proof.
  split; [wf_fixture|]. split; [reflexivity|].
  apply (closest_returns_table_words royal_table royal_query (-4) []);
    [wf_fixture | reflexivity].
Defined.

(** X4.  For [0 <= n <= m], [closest(d, n)] is [closest(d, m)[:n]]: the
    shorter answer is a prefix of the longer one, and both fail alike. This
    holds in every state, whatever the table. *)
Theorem closest_prefix d n m s :
  0 <= n <= m ->
  closest d n s = (l <- closest d m ;; ret (Py.slice_to n l)) s.
Proof.
  intros Hnm. unfold closest, bind.
  destruct (all_dists d s) as [[l|e] s']; cbn; [|reflexivity].
  now rewrite slice_to_slice_to.
Qed.

Lemma closest_prefix_witness :
  0 <= 3 <= 10 /\
  closest royal_query 3 (mkState royal_table [])
  = (l <- closest royal_query 10 ;; ret (Py.slice_to 3 l)) (mkState royal_table []).
Proof.
  split; [lia|]. apply (closest_prefix royal_query 3 10). lia.
Defined.

(** X5.  When [n] is at least the number of words, [closest] returns the
    whole vocabulary: as many pairs as the table has words, every word of
    the table among them. *)
Theorem closest_whole_table g q n out :
  wf_table g -> length q = wv_size g -> Z.of_nat (size g) <= n ->
  exists res,
    closest q n (mkState g out) = (Ok res, mkState g out) /\
    length res = size g /\
    Permutation (map fst res) (Py.keys (wv_dict g)).
Proof.
  intros Hwf Hq Hn. exists (ranking g q).
  split; [|split].
  - rewrite closest_ranking by assumption.
    now rewrite slice_to_all by (rewrite ranking_length; assumption).
  - apply ranking_length.
  - rewrite <- (entry_words g q). apply Permutation_map, ranking_perm.
Qed.

Lemma closest_whole_table_witness :
  wf_table spelling_table /\ length [1%R; 2%R] = wv_size spelling_table /\
  Z.of_nat (size spelling_table) <= 10 /\
  exists res,
    closest [1%R; 2%R] 10 (mkState spelling_table [])
    = (Ok res, mkState spelling_table []) /\
    length res = size spelling_table /\
    Permutation (map fst res) (Py.keys (wv_dict spelling_table)).
Proof.
  split; [wf_fixture|]. split; [reflexivity|]. split; [cbn; lia|].
  apply (closest_whole_table spelling_table [1%R; 2%R] 10 []);
    [wf_fixture | reflexivity | cbn; lia].
Defined.

(** ** [analogy] *)

Lemma analogy_raises_after_header {F : Float32} w1 w2 w3 n fg g out e :
  analogy_query w1 w2 w3 (mkState g out) = (Raise e, mkState g out) ->
  analogy w1 w2 w3 n fg (mkState g out)
  = (Raise e, mkState g (out ++ [HeaderLine w1 w2 w3])%list).
Proof.
  intros Hq. unfold analogy.
  unfold bind at 1. cbn [Py.print globals stdout].
  erewrite bind_Raise; [reflexivity|].
  exact (reads_run _ g out _ _ (reads_analogy_query w1 w2 w3) Hq).
Qed.

Lemma analogy_completes {F : Float32} g w1 w2 w3 n fg out :
  wf_table g -> has_word g w1 -> has_word g w2 -> has_word g w3 ->
  exists q,
    length q = wv_size g /\
    analogy_query w1 w2 w3 (mkState g out) = (Ok q, mkState g out) /\
    analogy_yields w1 w2 w3 n fg (mkState g out)
      (Py.slice_to n
         (if fg
          then filter (not_given w1 w2 w3)
                 (Py.slice_to closest_default_n (ranking g q))
          else Py.slice_to closest_default_n (ranking g q))).
Proof.
  intros Hwf H1 H2 H3.
  destruct (analogy_candidates_run g w1 w2 w3 out Hwf H1 H2 H3)
    as (q & Hlen & Hq & Hc).
  exists q. repeat split; [assumption..|].
  exact (analogy_run w1 w2 w3 n fg _ q _ Hq Hc).
Qed.

Lemma analogy_query_KeyError {F : Float32} g w1 w2 w3 out :
  wf_table g ->
  let s := mkState g out in
  (~ has_word g w2 -> analogy_query w1 w2 w3 s = (Raise (KeyError w2), s)) /\
  (has_word g w2 -> ~ has_word g w1 ->
   analogy_query w1 w2 w3 s = (Raise (KeyError w1), s)) /\
  (has_word g w2 -> has_word g w1 -> ~ has_word g w3 ->
   analogy_query w1 w2 w3 s = (Raise (KeyError w3), s)).
Proof.
  intros Hwf s. subst s. unfold analogy_query. repeat split.
  - intros H2.
    erewrite bind_Raise; [reflexivity | now apply get_word_absent].
  - intros H2 H1.
    apply has_word_In in H2. destruct H2 as [i2 H2].
    erewrite bind_Ok by exact (get_word_item g Hwf w2 i2 out H2).
    erewrite bind_Raise; [reflexivity | now apply get_word_absent].
  - intros H2 H1 H3.
    apply has_word_In in H1, H2. destruct H1 as [i1 H1], H2 as [i2 H2].
    erewrite bind_Ok by exact (get_word_item g Hwf w2 i2 out H2).
    erewrite bind_Ok by exact (get_word_item g Hwf w1 i1 out H1).
    erewrite bind_Ok; cycle 1.
    { apply elementwise_same_size.
      rewrite !(vector_length g Hwf);
        [reflexivity | eapply item_in_range; eassumption
         | eapply item_in_range; eassumption]. }
    erewrite bind_Raise; [reflexivity | now apply get_word_absent].
Qed.

(** X6.  When a word is missing, [analogy] has already printed its header:
    it raises the [KeyError] of the first missing word in the order [w2],
    [w1], [w3], and standard output holds the header line and no entry. *)
Theorem analogy_header_then_KeyError {F : Float32} g w1 w2 w3 n fg out :
  wf_table g ->
  let s := mkState g out in
  let s' := mkState g (out ++ [HeaderLine w1 w2 w3])%list in
  (~ has_word g w2 ->
   analogy w1 w2 w3 n fg s = (Raise (KeyError w2), s')) /\
  (has_word g w2 -> ~ has_word g w1 ->
   analogy w1 w2 w3 n fg s = (Raise (KeyError w1), s')) /\
  (has_word g w2 -> has_word g w1 -> ~ has_word g w3 ->
   analogy w1 w2 w3 n fg s = (Raise (KeyError w3), s')).
Proof.
  intros Hwf s s'.
  destruct (analogy_query_KeyError g w1 w2 w3 out Hwf) as (Q2 & Q1 & Q3).
  repeat split.
  - intros H2. apply analogy_raises_after_header. now apply Q2.
  - intros H2 H1. apply analogy_raises_after_header. now apply Q1.
  - intros H2 H1 H3. apply analogy_raises_after_header. now apply Q3.
Qed.

Lemma analogy_header_then_KeyError_witness :
  wf_table royal_table /\
  analogy (F := exact_float) "king" "mann" "kween" 5 true (mkState royal_table [])
  = (Raise (KeyError "mann"),
     mkState royal_table [HeaderLine "king" "mann" "kween"]) /\
  analogy (F := exact_float) "king" "man" "kween" 5 true (mkState royal_table [])
  = (Raise (KeyError "kween"),
     mkState royal_table [HeaderLine "king" "man" "kween"]).
Proof.
  split; [wf_fixture|]. split.
  - apply (analogy_header_then_KeyError (F := exact_float) royal_table "king" "mann" "kween" 5 true []).
    + wf_fixture.
    + cbn. intuition discriminate.
  - apply (analogy_header_then_KeyError (F := exact_float) royal_table "king" "man" "kween" 5 true []).
    + wf_fixture.
    + cbn; tauto.
    + cbn; tauto.
    + cbn. intuition discriminate.
Defined.

(** X7.  On a table that holds the three words, for every [n] and either
    value of [filter_given], the entries [analogy] shows are in ascending
    order of distance and no word is shown twice. *)
Theorem analogy_shows_ascending {F : Float32} g w1 w2 w3 n fg out :
  wf_table g -> has_word g w1 -> has_word g w2 -> has_word g w3 ->
  exists l,
    analogy_yields w1 w2 w3 n fg (mkState g out) l /\
    StronglySorted dist_le l /\
    NoDup (map fst l).
Proof.
  intros Hwf H1 H2 H3.
  destruct (analogy_completes g w1 w2 w3 n fg out Hwf H1 H2 H3)
    as (q & _ & _ & Hy).
  eexists. split; [exact Hy|].
  pose proof (ascending_slice_to snd closest_default_n _ (ranking_ascending g q))
    as Hs.
  pose proof (slice_words_NoDup closest_default_n _ (ranking_words_NoDup g Hwf q))
    as Hnd.
  split.
  - apply ascending_slice_to. destruct fg; [now apply ascending_filter | exact Hs].
  - apply slice_words_NoDup.
    destruct fg; [now apply filter_words_NoDup | exact Hnd].
Qed.

Lemma analogy_shows_ascending_witness :
  wf_table royal_table /\
  exists l,
    analogy_yields (F := exact_float) "king" "man" "queen" 5 true (mkState royal_table []) l /\
    StronglySorted dist_le l /\
    NoDup (map fst l).
Proof.
  split; [wf_fixture|].
  apply (analogy_shows_ascending (F := exact_float) royal_table "king" "man" "queen" 5 true []).
  - wf_fixture.
  - cbn; tauto.
  - cbn; tauto.
  - cbn; tauto.
Defined.

(** X8.  On a table that holds the three words, [analogy] never shows
    more than ten entries, however large [n] is, never more than [n]
    entries for [n >= 0], and none for [n = 0]. *)
Theorem analogy_at_most_ten {F : Float32} g w1 w2 w3 n fg out :
  wf_table g -> has_word g w1 -> has_word g w2 -> has_word g w3 ->
  exists l,
    analogy_yields w1 w2 w3 n fg (mkState g out) l /\
    (length l <= 10)%nat /\
    (0 <= n -> (length l <= Z.to_nat n)%nat) /\
    (n = 0 -> l = []).
Proof.
  intros Hwf H1 H2 H3.
  destruct (analogy_completes g w1 w2 w3 n fg out Hwf H1 H2 H3)
    as (q & _ & _ & Hy).
  eexists. split; [exact Hy|].
  set (cands := Py.slice_to closest_default_n (ranking g q)) in *.
  assert (Hc : (length cands <= 10)%nat).
  { subst cands. rewrite slice_to_length by (unfold closest_default_n; lia).
    unfold closest_default_n. lia. }
  assert (Hkept : (length (if fg then filter (not_given w1 w2 w3) cands else cands)
                   <= 10)%nat).
  { destruct fg; [|exact Hc].
    pose proof (filter_split_length (not_given w1 w2 w3) cands). lia. }
  split; [|split].
  - pose proof (slice_to_length_le n
                  (if fg then filter (not_given w1 w2 w3) cands else cands)).
    lia.
  - intros Hn. rewrite slice_to_length by assumption. lia.
  - intros ->. reflexivity.
Qed.

Lemma analogy_at_most_ten_witness :
  wf_table royal_table /\
  exists l,
    analogy_yields (F := exact_float) "king" "man" "queen" 40 false (mkState royal_table []) l /\
    (length l <= 10)%nat /\
    (0 <= 40 -> (length l <= Z.to_nat 40)%nat) /\
    (40 = 0 -> l = []).
Proof.
  split; [wf_fixture|].
  apply (analogy_at_most_ten (F := exact_float) royal_table "king" "man" "queen" 40 false []).
  - wf_fixture.
  - cbn; tauto.
  - cbn; tauto.
  - cbn; tauto.
Defined.

(** ** A word's own neighbourhood *)

Lemma zip_with_cancel {F : Float32} a c :
  length a = length c ->
  Torch.zip_with fadd (Torch.zip_with fsub a a) c = c.
Proof.
  revert c. induction a as [|x a IH]; intros [|z c]; cbn; try discriminate.
  - reflexivity.
  - intros [= Hlen]. f_equal; [|now apply IH].
    now rewrite fsub_diag, fadd_0_l.
Qed.

Section OwnVector.
Variable g : Globals.
Hypothesis Hwf : wf_table g.

(** The ranking around the vector of a word of the table starts with a
    word that has this vector, at distance zero. *)
Lemma ranking_starts_at_zero w i :
  In (w, i) (wv_dict g) ->
  exists w0 i0 rest,
    ranking g (vector g i) = (w0, 0%R) :: rest /\
    In (w0, i0) (wv_dict g) /\ vector g i0 = vector g i.
Proof.
  intros Hin.
  assert (Hown : In (w, 0%R) (ranking g (vector g i))).
  { apply (proj2 (ranking_In g _ _)). exists i. cbn.
    split; [assumption | now rewrite euclid_refl]. }
  pose proof (ranking_ascending g (vector g i)) as Hs.
  destruct (ranking g (vector g i)) as [|[w0 x] rest] eqn:Hr; [contradiction|].
  assert (Hhead : In (w0, x) (ranking g (vector g i)))
    by (rewrite Hr; now left).
  apply (proj1 (ranking_In g _ _)) in Hhead.
  destruct Hhead as [i0 [Hi0 Hx]]. cbn in Hi0, Hx.
  assert (Hle : (x <= 0)%R).
  { destruct Hown as [[= _ ->]|Hown]; [lra|].
    inversion Hs as [|? ? _ Hall]; subst.
    rewrite Forall_forall in Hall. exact (Hall _ Hown). }
  assert (Hzero : x = 0%R).
  { pose proof (euclid_nonneg (vector g i) (vector g i0)). lra. }
  rewrite Hzero in Hx |- *.
  exists w0, i0, rest. split; [reflexivity|]. split; [assumption|].
  symmetry. apply euclid_zero; [|now symmetry].
  rewrite !(vector_length g Hwf);
    [reflexivity | eapply item_in_range; eassumption
     | eapply item_in_range; eassumption].
Qed.

Lemma own_candidates w i :
  In (w, i) (wv_dict g) ->
  exists w0 i0 rest,
    Py.slice_to closest_default_n (ranking g (vector g i)) = (w0, 0%R) :: rest /\
    In (w0, i0) (wv_dict g) /\ vector g i0 = vector g i /\
    S (length rest) = Nat.min 10 (size g).
Proof.
  intros Hin.
  destruct (ranking_starts_at_zero w i Hin) as (w0 & i0 & rest & Hr & Hi0 & Hv).
  exists w0, i0, (firstn 9 rest).
  pose proof (ranking_length g (vector g i)) as Hlen.
  rewrite Hr in *. cbn in Hlen.
  rewrite slice_to_nonneg by (unfold closest_default_n; lia).
  repeat split; [assumption..|].
  rewrite length_firstn. lia.
Qed.
End OwnVector.

(** X9.  [analogy(w, w, w3, n, filter_given=False)] searches around the
    vector of [w3] itself: its query is [get_word(w3)], and for [n >= 1]
    the first entry it shows is at distance zero, a word that has the
    vector of [w3]. *)
Theorem analogy_same_pair {F : Float32} g w w3 n out :
  wf_table g -> has_word g w -> has_word g w3 -> 1 <= n ->
  let s := mkState g out in
  analogy_query w w w3 s = get_word w3 s /\
  exists w0 rest,
    analogy_yields w w w3 n false s ((w0, 0%R) :: rest) /\
    exists v, get_word w3 s = (Ok v, s) /\ get_word w0 s = (Ok v, s).
Proof.
  intros Hwf Hw H3 Hn s.
  apply has_word_In in Hw, H3. destruct Hw as [i Hw], H3 as [i3 H3].
  pose proof (vector_length g Hwf i (item_in_range g Hwf _ _ Hw)) as L.
  pose proof (vector_length g Hwf i3 (item_in_range g Hwf _ _ H3)) as L3.
  assert (Hq : analogy_query w w w3 s = (Ok (vector g i3), s)).
  { subst s. rewrite (analogy_query_run g Hwf w w w3 i i i3 out Hw Hw H3).
    now rewrite zip_with_cancel by congruence. }
  split.
  - subst s. now rewrite Hq, (get_word_item g Hwf w3 i3 out H3).
  - destruct (own_candidates g Hwf w3 i3 H3)
      as (w0 & i0 & rest & Hc & Hi0 & Hv & _).
    exists w0, (firstn (Z.to_nat n - 1) rest). split.
    + replace ((w0, 0%R) :: firstn (Z.to_nat n - 1) rest)
        with (Py.slice_to n ((w0, 0%R) :: rest)).
      * rewrite <- Hc.
        apply (analogy_run w w w3 n false s (vector g i3)); [exact Hq|].
        subst s. now apply closest_ranking.
      * rewrite slice_to_nonneg by lia.
        replace (Z.to_nat n) with (S (Z.to_nat n - 1)) at 1 by lia.
        reflexivity.
    + exists (vector g i3). subst s. split.
      * now apply get_word_item.
      * rewrite <- Hv. now apply get_word_item.
Qed.

Lemma analogy_same_pair_witness :
  wf_table royal_table /\ 1 <= 3 /\
  analogy_query (F := exact_float) "king" "king" "queen" (mkState royal_table [])
  = get_word "queen" (mkState royal_table []) /\
  exists w0 rest,
    analogy_yields (F := exact_float) "king" "king" "queen" 3 false (mkState royal_table [])
      ((w0, 0%R) :: rest) /\
    exists v, get_word "queen" (mkState royal_table []) = (Ok v, mkState royal_table []) /\
              get_word w0 (mkState royal_table []) = (Ok v, mkState royal_table []).
Proof.
  split; [wf_fixture|]. split; [lia|].
  apply (analogy_same_pair (F := exact_float) royal_table "king" "queen" 3 []).
  - wf_fixture.
  - cbn; tauto.
  - cbn; tauto.
  - lia.
Defined.

(** ** The cell that shows a word's neighbours *)

(** X10.  [print_tuples(closest(get_word(word)))] on a word of the table
    prints [min 10 (size g)] lines and nothing else, the first of them at
    distance zero for a word that has the vector of [word]; on a word
    that is not in the table it raises [KeyError] and prints nothing. *)
Theorem show_closest_lines g word out :
  wf_table g ->
  let s := mkState g out in
  (has_word g word ->
   exists w0 rest,
     show_closest word s
     = (Ok tt, mkState g (out ++ map tuple_line ((w0, 0%R) :: rest))%list) /\
     S (length rest) = Nat.min 10 (size g) /\
     exists v, get_word word s = (Ok v, s) /\ get_word w0 s = (Ok v, s)) /\
  (~ has_word g word -> show_closest word s = (Raise (KeyError word), s)).
Proof.
  intros Hwf s. split.
  - intros Hw. apply has_word_In in Hw. destruct Hw as [i Hw].
    destruct (own_candidates g Hwf word i Hw)
      as (w0 & i0 & rest & Hc & Hi0 & Hv & Hlen).
    exists w0, rest. split; [|split].
    + unfold show_closest. subst s.
      erewrite bind_Ok by exact (get_word_item g Hwf word i out Hw).
      erewrite bind_Ok; cycle 1.
      { apply closest_ranking; [assumption|].
        apply vector_length; [assumption | eapply item_in_range; eassumption]. }
      rewrite Hc. apply print_tuples_run.
    + exact Hlen.
    + exists (vector g i). subst s. split.
      * now apply get_word_item.
      * rewrite <- Hv. now apply get_word_item.
  - intros Hw. unfold show_closest. subst s.
    erewrite bind_Raise; [reflexivity | now apply get_word_absent].
Qed.

Lemma show_closest_lines_witness :
  wf_table spelling_table /\
  (exists w0 rest,
     show_closest "color" (mkState spelling_table [])
     = (Ok tt, mkState spelling_table ([] ++ map tuple_line ((w0, 0%R) :: rest))%list) /\
     S (length rest) = 3%nat) /\
  show_closest "colr" (mkState spelling_table [])
  = (Raise (KeyError "colr"), mkState spelling_table []).
Proof.
  split; [wf_fixture|].
  destruct (show_closest_lines spelling_table "color" [] ltac:(wf_fixture))
    as [Hpresent _].
  destruct (show_closest_lines spelling_table "colr" [] ltac:(wf_fixture))
    as [_ Habsent].
  split.
  - destruct Hpresent as (w0 & rest & Hrun & Hlen & _); [cbn; tauto|].
    exists w0, rest. split; assumption.
  - apply Habsent. cbn. intuition discriminate.
Defined.

(** ** The cell of successive analogies *)

Lemma analogy_yields_any_out {F : Float32} w1 w2 w3 n fg g out out' l :
  analogy_yields w1 w2 w3 n fg (mkState g out) l ->
  analogy_yields w1 w2 w3 n fg (mkState g out') l.
Proof.
  unfold analogy_yields. destruct (prints_analogy w1 w2 w3 n fg) as [f Hf].
  rewrite !Hf. cbn. intros [= Hr Hout].
  apply app_inv_head in Hout. now rewrite Hr, Hout.
Qed.

Lemma analogies_cons {F : Float32} t ts s :
  analogies (t :: ts) s
  = (analogy_default (fst (fst t)) (snd (fst t)) (snd t) ;; analogies ts) s.
Proof. reflexivity. Qed.

(** X11.  A cell of calls [analogy(w1, w2, w3)] whose words are all in the
    table completes, and what it prints is, call after call, the header of
    the call followed by the entries that call shows when run alone: at
    most five each, none of them a word of the call. *)
Theorem analogies_compose {F : Float32} g triples out :
  wf_table g -> Forall (present g) triples ->
  exists shown,
    analogies triples (mkState g out)
    = (Ok tt, mkState g (out ++ cell_lines triples shown)%list) /\
    Forall2
      (fun t l =>
         (forall out', analogy_yields (fst (fst t)) (snd (fst t)) (snd t) 5 true
                         (mkState g out') l) /\
         (length l <= 5)%nat /\
         Forall (avoids (fst (fst t)) (snd (fst t)) (snd t)) l)
      triples shown.
Proof.
  intros Hwf Hall. revert out.
  induction Hall as [|[[w1 w2] w3] ts (H1 & H2 & H3) Hts IH]; intros out.
  - exists []. split; [|constructor].
    unfold cell_lines. cbn. now rewrite app_nil_r.
  - cbn [fst snd] in H1, H2, H3.
    destruct (analogy_completes g w1 w2 w3 5 true out Hwf H1 H2 H3)
      as (q & _ & _ & Hy).
    set (l := Py.slice_to 5
                (filter (not_given w1 w2 w3)
                   (Py.slice_to closest_default_n (ranking g q)))) in *.
    destruct (IH (out ++ analogy_lines (w1, w2, w3) l)%list)
      as (shown & Hrun & Hshown).
    exists (l :: shown). split.
    + rewrite analogies_cons. cbn [fst snd].
      erewrite bind_Ok by exact Hy. cbn [globals stdout].
      unfold analogy_lines in Hrun. cbn [fst snd] in Hrun. rewrite Hrun.
      unfold cell_lines, analogy_lines. cbn [combine map concat fst snd].
      now rewrite <- app_assoc.
    + constructor; [|exact Hshown]. cbn [fst snd]. split; [|split].
      * intros out'. exact (analogy_yields_any_out _ _ _ _ _ _ _ _ _ Hy).
      * subst l. rewrite slice_to_length by lia. lia.
      * apply filtered_avoids.
Qed.

Lemma analogies_compose_witness :
  wf_table royal_table /\
  Forall (present royal_table) [("king", "man", "queen"); ("man", "king", "woman")] /\
  exists shown,
    analogies (F := exact_float) [("king", "man", "queen"); ("man", "king", "woman")]
      (mkState royal_table [])
    = (Ok tt,
       mkState royal_table
         ([] ++ cell_lines [("king", "man", "queen"); ("man", "king", "woman")]
                  shown)%list) /\
    length shown = 2%nat.
Proof.
  assert (Hall : Forall (present royal_table)
                   [("king", "man", "queen"); ("man", "king", "woman")])
    by (repeat constructor; cbn; tauto).
  split; [wf_fixture|]. split; [exact Hall|].
  destruct (analogies_compose (F := exact_float) royal_table
              [("king", "man", "queen"); ("man", "king", "woman")] []
              ltac:(wf_fixture) Hall)
    as (shown & Hrun & Hshown).
  exists shown. split; [exact Hrun|].
  symmetry. exact (Forall2_length Hshown).
Defined.



Local Close Scope string_scope.
